(** * SecureCall: signaling server and frame cipher engine

    A shallow embedding of the two source files of the repository:

    - the signaling server (room registry and membership notifications:
      the [join-room], [leave-room] and [disconnect] handlers and
      [handleUserLeave]);
    - the client's [E2EECrypto] class ([deriveKeyFromPIN], [generateIV],
      [encryptFrame], [decryptFrame]) and the parts of [App] that drive it
      ([handleLeave], the [roomFull] listener).

    Socket identifiers, room names and PINs are strings; byte buffers
    ([ArrayBuffer], [Uint8Array]) are lists of integers, one per byte;
    JavaScript numbers that hold integers are modelled in [Z] with the
    conversions the operators apply written out. *)

From Stdlib Require Import ZArith List Lia.
From stdpp Require Import gmap strings list fin_maps fin_sets.

Local Open Scope Z_scope.

(** ** Part I: definitions *)

(** *** The signaling server *)

Module Signaling.

(** The value stored in [rooms]: [{ users: Set, occupancy: number }]. *)
Record RoomData := mkRoomData {
  users : gset string;
  occupancy : nat
}.

(** Events the server emits to clients. *)
Inductive ServerEvent :=
| roomFull
| roomJoined (occ : nat)
| userJoined (userId : string) (occ : nat)
| userLeft (userId : string) (occ : nat).

(** A delivery is an emitted event together with the socket it reaches. *)
Definition Delivery : Type := string * ServerEvent.

(** Server state: the [rooms] map, the Socket.IO room membership that
    [socket.join]/[socket.leave] maintain and [socket.to(room)] reads, and
    the [currentRoom] property stored on each socket ([null]/[undefined]
    is an absent entry). *)
Record State := mkState {
  rooms : gmap string RoomData;
  sio_rooms : gmap string (gset string);
  currentRoom : gmap string string
}.

Definition init : State :=
  {| rooms := ∅; sio_rooms := ∅; currentRoom := ∅ |}.

Definition sio_members (sio : gmap string (gset string)) (room : string)
  : gset string := default ∅ (sio !! room).

(** [socket.join(room)] *)
Definition socket_join (sio : gmap string (gset string)) (sock room : string)
  : gmap string (gset string) :=
  <[room := sio_members sio room ∪ {[sock]}]> sio.

(** [socket.leave(room)] *)
Definition socket_leave (sio : gmap string (gset string)) (sock room : string)
  : gmap string (gset string) :=
  <[room := sio_members sio room ∖ {[sock]}]> sio.

(** [socket.emit(ev)]: to the socket itself. *)
Definition socket_emit (sock : string) (ev : ServerEvent) : list Delivery :=
  [(sock, ev)].

(** [socket.to(room).emit(ev)]: to every socket joined to [room] except the
    sender. *)
Definition socket_to_emit (sio : gmap string (gset string))
    (sock room : string) (ev : ServerEvent) : list Delivery :=
  (λ r, (r, ev)) <$> elements (sio_members sio room ∖ {[sock]}).

(** [rooms.get(room) || { users: new Set(), occupancy: 0 }] *)
Definition get_roomData (st : State) (room : string) : RoomData :=
  default {| users := ∅; occupancy := 0 |} (rooms st !! room).

(** The ['join-room'] handler. *)
Definition join_room (st : State) (sock room : string)
  : State * list Delivery :=
  let roomData := get_roomData st room in
  if decide (2 ≤ occupancy roomData)%nat then
    (st, socket_emit sock roomFull)
  else
    let sio := socket_join (sio_rooms st) sock room in
    let users' := users roomData ∪ {[sock]} in
    let roomData' := {| users := users'; occupancy := size users' |} in
    ({| rooms := <[room := roomData']> (rooms st);
        sio_rooms := sio;
        currentRoom := <[sock := room]> (currentRoom st) |},
     socket_emit sock (roomJoined (occupancy roomData'))
       ++ socket_to_emit sio sock room
            (userJoined sock (occupancy roomData'))).

(** [handleUserLeave(socket, room)] *)
Definition handleUserLeave (st : State) (sock room : string)
  : State * list Delivery :=
  let '(rooms', out) :=
    match rooms st !! room with
    | Some roomData =>
        let users' := users roomData ∖ {[sock]} in
        let roomData' := {| users := users'; occupancy := size users' |} in
        if decide (occupancy roomData' = 0)%nat then
          (delete room (rooms st), [])
        else
          (<[room := roomData']> (rooms st),
           socket_to_emit (sio_rooms st) sock room
             (userLeft sock (occupancy roomData')))
    | None => (rooms st, [])
    end in
  ({| rooms := rooms';
      sio_rooms := socket_leave (sio_rooms st) sock room;
      currentRoom := delete sock (currentRoom st) |},
   out).

(** The ['leave-room'] handler. *)
Definition leave_room (st : State) (sock room : string)
  : State * list Delivery :=
  handleUserLeave st sock room.

(** JavaScript truthiness of a string: the empty string is falsy. *)
Definition truthy (s : string) : bool :=
  match s with EmptyString => false | _ => true end.

(** The ['disconnect'] handler.  Socket.IO has already removed the closing
    socket from every room it had joined when the handler runs. *)
Definition disconnect (st : State) (sock : string) : State * list Delivery :=
  let st0 := {| rooms := rooms st;
                sio_rooms := (λ m : gset string, m ∖ {[sock]}) <$> sio_rooms st;
                currentRoom := currentRoom st |} in
  match currentRoom st !! sock with
  | Some room =>
      if truthy room then handleUserLeave st0 sock room else (st0, [])
  | None => (st0, [])
  end.

(** Messages a socket sends to the server. *)
Inductive ClientMsg :=
| JoinRoom (room : string)
| LeaveRoom (room : string)
| Disconnect.

Definition Input : Type := string * ClientMsg.

Definition step (st : State) (i : Input) : State * list Delivery :=
  match i with
  | (sock, JoinRoom room) => join_room st sock room
  | (sock, LeaveRoom room) => leave_room st sock room
  | (sock, Disconnect) => disconnect st sock
  end.

(** Handlers run to completion one after the other; [run] processes a
    sequence of inputs and collects everything emitted. *)
Fixpoint run (st : State) (inputs : list Input) : State * list Delivery :=
  match inputs with
  | [] => (st, [])
  | i :: rest =>
      let '(st1, out1) := step st i in
      let '(st2, out2) := run st1 rest in
      (st2, out1 ++ out2)
  end.

(** The states after each step, the starting state first. *)
Fixpoint trace (st : State) (inputs : list Input) : list State :=
  st :: match inputs with
        | [] => []
        | i :: rest => trace (step st i).1 rest
        end.

(** The occupancy of a room: the stored field, 0 when there is no entry. *)
Definition occupancy_of (st : State) (room : string) : nat :=
  match rooms st !! room with
  | Some roomData => occupancy roomData
  | None => 0%nat
  end.

(** The occupancy carried by a join notification. *)
Definition reported_occupancy (ev : ServerEvent) : option nat :=
  match ev with
  | roomJoined occ | userJoined _ occ => Some occ
  | roomFull | userLeft _ _ => None
  end.

(** The users recorded for a room, none when there is no entry. *)
Definition users_of (st : State) (room : string) : gset string :=
  match rooms st !! room with
  | Some roomData => users roomData
  | None => ∅
  end.

(** The registry invariant: every stored room has a consistent occupancy
    field and between one and two users. *)
Definition registry_ok (st : State) : Prop :=
  ∀ room roomData, rooms st !! room = Some roomData →
    occupancy roomData = size (users roomData)
    ∧ (1 ≤ occupancy roomData ≤ 2)%nat.

End Signaling.

(** *** JavaScript number and buffer operations used by the client *)

Module JS.

(** A byte buffer, one integer in [0, 256) per byte. *)
Abbreviation bytes := (list Z).

(** The abstract operations [ToUint32] and [ToInt32]. *)
Definition ToUint32 (n : Z) : Z := n mod 2 ^ 32.

Definition ToInt32 (n : Z) : Z :=
  let u := n mod 2 ^ 32 in
  if u <? 2 ^ 31 then u else u - 2 ^ 32.

(** [x >> y]: the left operand is converted with [ToInt32] and the shift
    count is [ToUint32(y)] masked to its five low bits. *)
Definition sar (x y : Z) : Z :=
  Z.shiftr (ToInt32 x) (Z.land (ToUint32 y) 31).

(** [x & y]: both operands are converted with [ToInt32]. *)
Definition band (x y : Z) : Z := Z.land (ToInt32 x) (ToInt32 y).

(** [x++] on a counter that starts at 0: the sum is exact below 2^53, and
    at 2^53 the double-precision sum 2^53 + 1 rounds back to 2^53. *)
Definition incr (n : Z) : Z := if n <? 2 ^ 53 then n + 1 else n.

(** [new ArrayBuffer(n)] / [new Uint8Array(n)]: zero-filled. *)
Definition new_buffer (n : nat) : bytes := replicate n 0.

(** The four bytes of an unsigned 32-bit value, most significant first. *)
Definition be32 (u : Z) : bytes :=
  [Z.land (Z.shiftr u 24) 255; Z.land (Z.shiftr u 16) 255;
   Z.land (Z.shiftr u 8) 255; Z.land u 255].

(** [view.setUint32(byteOffset, value)] (big-endian, the default), for an
    offset with four bytes of room, as at both call sites. *)
Definition setUint32 (buf : bytes) (byteOffset : nat) (value : Z) : bytes :=
  take byteOffset buf ++ be32 (ToUint32 value) ++ drop (byteOffset + 4) buf.

(** [target.set(source, offset)] on a [Uint8Array], for a source that fits. *)
Definition typed_set (target source : bytes) (offset : nat) : bytes :=
  take offset target ++ source ++ drop (offset + length source) target.

(** [new TextEncoder().encode(s)]: strings are held as their UTF-8 bytes. *)
Definition encode (s : string) : bytes :=
  (λ a, Z.of_N (Ascii.N_of_ascii a)) <$> String.list_ascii_of_string s.

(** The outcome of an awaited promise or of a call that may throw. *)
Inductive Completion (A : Type) :=
| Normal (a : A)
| Throw.
Arguments Normal {A} a.
Arguments Throw {A}.

(** [try { body } catch (e) { handler }] *)
Definition try_catch {A} (body handler : Completion A) : Completion A :=
  match body with
  | Normal a => Normal a
  | Throw => handler
  end.

End JS.

(** *** The Web Crypto operations the client calls *)

Module WebCrypto.
Import JS.

Inductive HashAlg := SHA_1 | SHA_256 | SHA_384 | SHA_512.

(** The algorithm argument [{ name: 'PBKDF2', salt, iterations, hash }]. *)
Record Pbkdf2Params := mkPbkdf2Params {
  salt : bytes;
  iterations : Z;
  hash : HashAlg
}.

(** [crypto.subtle], restricted to the calls the client makes.  An
    AES-GCM decryption whose authentication fails rejects its promise. *)
Class SubtleCrypto := {
  CryptoKey : Type;
  (** [importKey('raw', keyData, 'PBKDF2', false, ...)] followed by
      [deriveKey(params, baseKey, { name: 'AES-GCM', length }, false, ...)] *)
  pbkdf2_deriveKey :
    Pbkdf2Params → bytes (* keyData *) → Z (* length *) → CryptoKey;
  (** [encrypt({ name: 'AES-GCM', iv }, key, data)] *)
  aes_gcm_encrypt : CryptoKey → bytes (* iv *) → bytes → bytes;
  (** [decrypt({ name: 'AES-GCM', iv }, key, data)] *)
  aes_gcm_decrypt : CryptoKey → bytes (* iv *) → bytes → Completion bytes
}.

(** Functional correctness of the cipher: decrypting what was encrypted
    under the same key and nonce gives back the plaintext. *)
Class AeadCorrect (crypto : SubtleCrypto) : Prop :=
  aead_correct : ∀ key iv data,
    aes_gcm_decrypt key iv (aes_gcm_encrypt key iv data) = Normal data.

(** Integrity of the cipher: a ciphertext that no encryption under the key
    and nonce produces is rejected. *)
Class AeadIntegrity (crypto : SubtleCrypto) : Prop :=
  aead_integrity : ∀ key iv ct,
    (∀ data, ct ≠ aes_gcm_encrypt key iv data) →
    aes_gcm_decrypt key iv ct = Throw.

(** A small cipher with the same interface, used to instantiate the
    interface on concrete inputs: keys are byte strings, the derived key
    is the key data followed by the salt, a frame is masked with a pad
    byte computed from key and nonce and preceded by that byte as tag. *)
Definition pad_of (key iv : bytes) : Z :=
  Z.land (foldr Z.lxor 0 (key ++ iv)) 255.

Definition mask_crypto : SubtleCrypto := {|
  CryptoKey := bytes;
  pbkdf2_deriveKey := λ params keyData _, keyData ++ salt params;
  aes_gcm_encrypt := λ key iv data,
    pad_of key iv :: (Z.lxor (pad_of key iv) <$> data);
  aes_gcm_decrypt := λ key iv data,
    match data with
    | tag :: body =>
        if decide (tag = pad_of key iv)
        then Normal (Z.lxor (pad_of key iv) <$> body)
        else Throw
    | [] => Throw
    end
|}.

End WebCrypto.

(** *** The client: [E2EECrypto] and the parts of [App] that drive it *)

Module Client.
Import JS WebCrypto.

Section Engine.
Context {crypto : SubtleCrypto}.

(** The fields set by the constructor of [E2EECrypto]. *)
Record E2EECrypto := mkE2EECrypto {
  cryptoKey : option CryptoKey;
  encryptionKey : option CryptoKey;
  ivCounter : Z
}.

(** [new E2EECrypto()] *)
Definition new_E2EECrypto : E2EECrypto :=
  {| cryptoKey := None; encryptionKey := None; ivCounter := 0 |}.

Definition pbkdf2_params : Pbkdf2Params :=
  {| salt := encode "SecureVideoCall2025";
     iterations := 100000;
     hash := SHA_256 |}.

(** [deriveKeyFromPIN(pin)]: stores the derived key and returns it. *)
Definition deriveKeyFromPIN (this : E2EECrypto) (pin : string)
  : E2EECrypto * CryptoKey :=
  let pinData := encode pin in
  let key := pbkdf2_deriveKey pbkdf2_params pinData 256 in
  ({| cryptoKey := Some key;
      encryptionKey := encryptionKey this;
      ivCounter := ivCounter this |},
   key).

(** [generateIV()]: returns the nonce and advances the counter. *)
Definition generateIV (this : E2EECrypto) : E2EECrypto * bytes :=
  let iv := new_buffer 12 in
  let iv := setUint32 iv 0 (sar (ivCounter this) 32) in
  let iv := setUint32 iv 4 (band (ivCounter this) 4294967295) in
  ({| cryptoKey := cryptoKey this;
      encryptionKey := encryptionKey this;
      ivCounter := incr (ivCounter this) |},
   iv).

(** [encryptFrame(data)] *)
Definition encryptFrame (this : E2EECrypto) (data : bytes)
  : E2EECrypto * bytes :=
  match cryptoKey this with
  | None => (this, data)
  | Some key =>
      let '(this', iv) := generateIV this in
      let encrypted := aes_gcm_encrypt key iv data in
      let result := new_buffer (length iv + length encrypted) in
      let result := typed_set result iv 0 in
      let result := typed_set result encrypted (length iv) in
      (this', result)
  end.

(** [decryptFrame(data)]; the engine is not modified. *)
Definition decryptFrame (this : E2EECrypto) (data : bytes)
  : Completion bytes :=
  match cryptoKey this with
  | None => Normal data
  | Some key =>
      if decide (length data < 12)%nat then Normal data
      else
        let iv := take 12 data in
        let encrypted := drop 12 data in
        try_catch
          (match aes_gcm_decrypt key iv encrypted with
           | Normal decrypted => Normal decrypted
           | Throw => Throw
           end)
          (Normal (new_buffer 0))
  end.

(** Successive [encryptFrame] calls on one engine, one per frame. *)
Fixpoint encryptFrames (this : E2EECrypto) (frames : list bytes)
  : E2EECrypto * list bytes :=
  match frames with
  | [] => (this, [])
  | data :: rest =>
      let '(this1, out) := encryptFrame this data in
      let '(this2, outs) := encryptFrames this1 rest in
      (this2, out :: outs)
  end.

(** The nonce written for counter value [n], as the code computes it. *)
Definition iv_of (n : Z) : bytes :=
  setUint32 (setUint32 (new_buffer 12) 0 (sar n 32)) 4 (band n 4294967295).

(** The layout the specification describes for the nonce: the counter as a
    64-bit integer in two big-endian 32-bit halves, high half first, in the
    first eight of the twelve bytes. *)
Definition iv_two_halves (n : Z) : bytes :=
  be32 (n / 2 ^ 32) ++ be32 (n mod 2 ^ 32) ++ [0; 0; 0; 0].

(** The 12-byte prefix of an encrypted frame. *)
Definition iv_prefix (frame : bytes) : bytes := take 12 frame.

(** The state of [App] that the call logic reads and writes.  The peer
    connection, the media streams and the video elements belong to the
    browser and are left out. *)
Inductive Status := idle | connecting | waiting | incall.

Record App := mkApp {
  pin : string;
  status : Status;
  cryptoRef : E2EECrypto;
  currentRoomRef : option string
}.

(** [useState]/[useRef] initial values. *)
Definition initial_App : App :=
  {| pin := ""; status := idle; cryptoRef := new_E2EECrypto;
     currentRoomRef := None |}.

Definition is_digit (a : Ascii.ascii) : bool :=
  let n := Ascii.N_of_ascii a in ((48 <=? n) && (n <=? 57))%N.

(** [pin.length !== 10 || !/^\d+$/.test(pin)] negated. *)
Definition valid_pin (p : string) : bool :=
  (String.length p =? 10)%nat
  && forallb is_digit (String.list_ascii_of_string p).

(** [setPin(p)], called from the PIN input. *)
Definition setPin (app : App) (p : string) : App :=
  {| pin := p; status := status app; cryptoRef := cryptoRef app;
     currentRoomRef := currentRoomRef app |}.

(** [handleJoin], up to the emission of ['join-room']; [media_ok] tells
    whether [initializeMedia] returned a stream. *)
Definition handleJoin (app : App) (media_ok : bool)
  : App * list Signaling.ClientMsg :=
  if negb (valid_pin (pin app)) then (app, [])
  else
    let crypto' := (deriveKeyFromPIN (cryptoRef app) (pin app)).1 in
    let app1 := {| pin := pin app; status := connecting;
                   cryptoRef := crypto';
                   currentRoomRef := Some (pin app) |} in
    if negb media_ok then
      ({| pin := pin app1; status := idle; cryptoRef := cryptoRef app1;
          currentRoomRef := currentRoomRef app1 |}, [])
    else (app1, [Signaling.JoinRoom (pin app)]).

(** [handleLeave]; [socketRef.current] is set from the first render on, so
    the guard of the ['leave-room'] emission is the truthiness of
    [currentRoomRef.current]. *)
Definition handleLeave (app : App) : App * list Signaling.ClientMsg :=
  let out :=
    match currentRoomRef app with
    | Some room =>
        if Signaling.truthy room then [Signaling.LeaveRoom room] else []
    | None => []
    end in
  ({| pin := ""; status := idle; cryptoRef := new_E2EECrypto;
      currentRoomRef := None |},
   out).

(** The ['roomFull'] listener: an alert, then [handleLeave()]. *)
Definition on_roomFull (app : App) : App * list Signaling.ClientMsg :=
  handleLeave app.

End Engine.

Arguments E2EECrypto : clear implicits.
Arguments App : clear implicits.

End Client.

(** *** The server's relay handlers and status endpoint *)

Module Relay.
Import Signaling.

(** The three negotiation events the server forwards. *)
Inductive SignalKind := offer | answer | ice_candidate.

Section Payload.
(** The session description or candidate carried by a message; the server
    never looks inside. *)
Context {Payload : Type}.

(** What a recipient gets: [{ offer, from }], [{ answer, from }] or
    [{ candidate, from }] under the event name [kind]. *)
Record Relayed := mkRelayed {
  kind : SignalKind;
  payload : Payload;
  from : string
}.

(** The ['offer'], ['answer'] and ['ice-candidate'] handlers, which differ
    in the event name only:
    [socket.to(room).emit(kind, { payload, from: socket.id })].  They read
    the Socket.IO membership and write nothing. *)
Definition relay (st : State) (sock room : string)
    (k : SignalKind) (p : Payload) : State * list (string * Relayed) :=
  (st,
   (λ r, (r, {| kind := k; payload := p; from := sock |}))
     <$> elements (sio_members (sio_rooms st) room ∖ {[sock]})).

End Payload.

Arguments Relayed : clear implicits.

(** [activeRooms: rooms.size] of the [/health] response. *)
Definition activeRooms (st : State) : nat := size (rooms st).

(** The room a client message acts on: the one it names, or for a
    disconnect the socket's [currentRoom]. *)
Definition target_room (st : State) (i : Input) : option string :=
  match i with
  | (_, JoinRoom room) | (_, LeaveRoom room) => Some room
  | (sock, Disconnect) => currentRoom st !! sock
  end.

(** Socket.IO membership stays inside the registry's user sets. *)
Definition sio_ok (st : State) : Prop :=
  ∀ room, sio_members (sio_rooms st) room ⊆ users_of st room.

End Relay.

(** *** The client's encoded-frame transforms *)

Module Pipeline.
Import JS WebCrypto Client.

Section Engine.
Context {crypto : SubtleCrypto}.

(** Sequencing of awaited calls: a rejection propagates. *)
Definition bind {A B} (c : Completion A) (f : A → Completion B)
  : Completion B :=
  match c with
  | Normal a => f a
  | Throw => Throw
  end.

(** The [transform] of [setupInsertableStreams] on its encrypting branch, the
    only one that is piped: [encryptFrame(data)], then
    [chunk.data = encrypted.buffer].  With a key the result is a fresh
    [Uint8Array] and [buffer] holds its bytes; without a key [encryptFrame]
    returns [data] itself, the chunk's [ArrayBuffer], on which the [buffer]
    property is [undefined] ([None]). *)
Definition sender_transform (this : E2EECrypto crypto) (data : bytes)
  : E2EECrypto crypto * option bytes :=
  let '(this', encrypted) := encryptFrame this data in
  (this', match cryptoKey this with
          | Some _ => Some encrypted
          | None => None
          end).

(** The sender's stream: chunks go through [transform] one at a time, in
    order, and each is enqueued. *)
Fixpoint sender_pipe (this : E2EECrypto crypto) (chunks : list bytes)
  : E2EECrypto crypto * list (option bytes) :=
  match chunks with
  | [] => (this, [])
  | data :: rest =>
      let '(this1, out) := sender_transform this data in
      let '(this2, outs) := sender_pipe this1 rest in
      (this2, out :: outs)
  end.

(** The [transform] of [setupReceiverStreams]:
    [decryptFrame(new Uint8Array(data))], then
    [chunk.data = decrypted.buffer]; every value [decryptFrame] returns is a
    [Uint8Array] that spans its buffer. *)
Definition receiver_transform (this : E2EECrypto crypto) (data : bytes)
  : Completion bytes :=
  bind (decryptFrame this data) (λ decrypted, Normal decrypted).

(** The receiver's stream: a chunk is enqueued when its [transform]
    completes; a rejection would error the stream. *)
Fixpoint receiver_pipe (this : E2EECrypto crypto) (chunks : list bytes)
  : Completion (list bytes) :=
  match chunks with
  | [] => Normal []
  | data :: rest =>
      bind (receiver_transform this data) (λ out,
      bind (receiver_pipe this rest) (λ outs,
      Normal (out :: outs)))
  end.

(** A byte of a [Uint8Array]. *)
Definition is_byte (b : Z) : Prop := 0 ≤ b < 256.

End Engine.

End Pipeline.

(** ** Part II: properties *)

(** *** The room registry *)

Module Registry.
Import Signaling.

Lemma registry_ok_init : registry_ok init.
Proof. intros room roomData Hget. cbn in Hget. by rewrite lookup_empty in Hget. Qed.

Lemma occupancy_of_bound st room :
  registry_ok st → (occupancy_of st room ≤ 2)%nat.
Proof.
  intros Hok. unfold occupancy_of.
  destruct (rooms st !! room) as [roomData|] eqn:Hget; [|lia].
  destruct (Hok _ _ Hget); lia.
Qed.

Lemma occupancy_of_users st room :
  registry_ok st → occupancy_of st room = size (users_of st room).
Proof.
  intros Hok. unfold occupancy_of, users_of.
  destruct (rooms st !! room) as [roomData|] eqn:Hget.
  - by destruct (Hok _ _ Hget).
  - by rewrite size_empty.
Qed.

Lemma get_roomData_occupancy st room :
  occupancy (get_roomData st room) = occupancy_of st room.
Proof. unfold get_roomData, occupancy_of. by destruct (rooms st !! room). Qed.

Lemma get_roomData_users st room :
  users (get_roomData st room) = users_of st room.
Proof. unfold get_roomData, users_of. by destruct (rooms st !! room). Qed.

(** A join on a full room answers [roomFull] to the sender and returns the
    state it was given. *)
Lemma join_room_full st sock room :
  (2 ≤ occupancy_of st room)%nat →
  join_room st sock room = (st, [(sock, roomFull)]).
Proof.
  intros Hfull. unfold join_room. rewrite get_roomData_occupancy.
  by rewrite decide_True.
Qed.

Lemma join_room_accepted st sock room :
  (occupancy_of st room < 2)%nat →
  join_room st sock room =
    (let users' := users_of st room ∪ {[sock]} in
     let sio := socket_join (sio_rooms st) sock room in
     ({| rooms := <[room := {| users := users'; occupancy := size users' |}]>
                    (rooms st);
         sio_rooms := sio;
         currentRoom := <[sock := room]> (currentRoom st) |},
      (sock, roomJoined (size users'))
        :: socket_to_emit sio sock room (userJoined sock (size users')))).
Proof.
  intros Hlt. unfold join_room.
  rewrite get_roomData_occupancy, get_roomData_users.
  rewrite decide_False by lia. reflexivity.
Qed.

Lemma users_of_join st sock room :
  (occupancy_of st room < 2)%nat →
  users_of (join_room st sock room).1 room = users_of st room ∪ {[sock]}.
Proof.
  intros Hfree. rewrite join_room_accepted by done.
  unfold users_of at 1. cbn. by rewrite lookup_insert_eq.
Qed.

Lemma occupancy_of_join st sock room :
  (occupancy_of st room < 2)%nat →
  occupancy_of (join_room st sock room).1 room
  = size (users_of st room ∪ {[sock]}).
Proof.
  intros Hfree. rewrite join_room_accepted by done.
  unfold occupancy_of at 1. cbn. by rewrite lookup_insert_eq.
Qed.

Lemma join_room_out st sock room :
  (occupancy_of st room < 2)%nat →
  (join_room st sock room).2 =
    (sock, roomJoined (size (users_of st room ∪ {[sock]})))
      :: socket_to_emit (socket_join (sio_rooms st) sock room) sock room
           (userJoined sock (size (users_of st room ∪ {[sock]}))).
Proof. intros Hfree. by rewrite join_room_accepted. Qed.

Lemma difference_subseteq_l (s t : gset string) : s ∖ t ⊆ s.
Proof. intros y Hy. by apply elem_of_difference in Hy as [Hy _]. Qed.

Lemma size_add_bound (s : gset string) (x : string) :
  (size s ≤ size (s ∪ {[x]}) ≤ S (size s))%nat.
Proof.
  split.
  - apply subseteq_size, union_subseteq_l.
  - rewrite size_union_alt.
    assert (size (({[x]} : gset string) ∖ s) ≤ 1)%nat; [|lia].
    rewrite <- (size_singleton (C := gset string) x).
    apply subseteq_size, difference_subseteq_l.
Qed.

Lemma size_add_pos (s : gset string) (x : string) : (1 ≤ size (s ∪ {[x]}))%nat.
Proof.
  rewrite <- (size_singleton (C := gset string) x).
  apply subseteq_size, union_subseteq_r.
Qed.

Lemma size_add_new (s : gset string) (x : string) :
  x ∉ s → size (s ∪ {[x]}) = S (size s).
Proof.
  intros Hnew. rewrite size_union.
  - rewrite size_singleton. lia.
  - by apply disjoint_singleton_r.
Qed.

Lemma size_add_old (s : gset string) (x : string) :
  x ∈ s → size (s ∪ {[x]}) = size s.
Proof.
  intros Hold. f_equal. rewrite (comm_L (∪)).
  by apply subseteq_union_1_L, singleton_subseteq_l.
Qed.

Lemma join_room_ok st sock room :
  registry_ok st → registry_ok (join_room st sock room).1.
Proof.
  intros Hok.
  destruct (decide (2 ≤ occupancy_of st room)%nat) as [Hfull|Hfree].
  - by rewrite join_room_full.
  - rewrite join_room_accepted by lia.
    intros room' roomData'. cbn. rewrite lookup_insert.
    case_decide as Hroom.
    + intros [= <-]. cbn. split; [done|].
      pose proof (size_add_bound (users_of st room) sock).
      pose proof (size_add_pos (users_of st room) sock).
      rewrite <- occupancy_of_users in * by done. lia.
    + apply Hok.
Qed.

Lemma handleUserLeave_ok st sock room :
  registry_ok st → registry_ok (handleUserLeave st sock room).1.
Proof.
  intros Hok. unfold handleUserLeave.
  destruct (rooms st !! room) as [roomData|] eqn:Hget; cbn.
  - destruct (Hok _ _ Hget) as [Hsize Hrange].
    case_decide as Hzero.
    + intros room' roomData'. cbn. rewrite lookup_delete.
      case_decide; [done|]. apply Hok.
    + intros room' roomData'. cbn. rewrite lookup_insert.
      case_decide.
      * intros [= <-]. cbn. split; [done|].
        assert (size (users roomData ∖ {[sock]}) ≤ size (users roomData))%nat
          by apply subseteq_size, difference_subseteq_l.
        lia.
      * apply Hok.
  - exact Hok.
Qed.

Lemma disconnect_ok st sock :
  registry_ok st → registry_ok (disconnect st sock).1.
Proof.
  intros Hok. unfold disconnect.
  destruct (currentRoom st !! sock) as [room|]; [|exact Hok].
  destruct (truthy room); [|exact Hok].
  by apply handleUserLeave_ok.
Qed.

Lemma step_ok st i : registry_ok st → registry_ok (step st i).1.
Proof.
  destruct i as [sock [room|room|]]; cbn.
  - apply join_room_ok.
  - apply handleUserLeave_ok.
  - apply disconnect_ok.
Qed.

Lemma trace_ok inputs : ∀ st st',
  registry_ok st → st' ∈ trace st inputs → registry_ok st'.
Proof.
  induction inputs as [|i rest IH]; intros st st' Hok Hin; cbn in Hin.
  - apply list_elem_of_singleton in Hin. by subst.
  - apply elem_of_cons in Hin as [->|Hin]; [done|].
    eapply IH; [|exact Hin]. by apply step_ok.
Qed.

Lemma run_ok inputs : ∀ st, registry_ok st → registry_ok (run st inputs).1.
Proof.
  induction inputs as [|i rest IH]; intros st Hok; cbn; [done|].
  pose proof (step_ok st i Hok) as Hok1.
  destruct (step st i) as [st1 out1].
  specialize (IH st1 Hok1). by destruct (run st1 rest) as [st2 out2].
Qed.

(** The rendezvous of the specification's scenarios: X joins, Y joins, Z is
    refused, X leaves, Y leaves and the room entry is gone. *)
Example run_two_party_call :
  run init [("X", JoinRoom "1111111111"); ("Y", JoinRoom "1111111111");
            ("Z", JoinRoom "1111111111"); ("X", LeaveRoom "1111111111");
            ("Y", Disconnect)]
  = ({| rooms := ∅;
        sio_rooms := {["1111111111" := ∅]};
        currentRoom := ∅ |},
     [("X", roomJoined 1); ("Y", roomJoined 2); ("X", userJoined "Y" 2);
      ("Z", roomFull); ("Y", userLeft "X" 1)]).
Proof. vm_compute. reflexivity. Qed.

(** C2: along every finite sequence of [join-room], [leave-room] and
    [disconnect] inputs processed from the empty registry, the occupancy of
    every room is 0, 1 or 2 after each step, and in any such state a join on
    a room whose occupancy is 2 is answered with [roomFull] to the sender and
    leaves the whole server state as it was. *)
Theorem C2_occupancy_bounded_and_full_rejected
    (inputs : list Input) (st : State) (room : string) :
  st ∈ trace init inputs →
  occupancy_of st room ∈ [0; 1; 2]%nat
  ∧ ∀ sock, occupancy_of st room = 2%nat →
      step st (sock, JoinRoom room) = (st, [(sock, roomFull)]).
Proof.
  intros Hin.
  pose proof (trace_ok inputs init st registry_ok_init Hin) as Hok.
  split.
  - pose proof (occupancy_of_bound st room Hok) as Hle.
    destruct (occupancy_of st room) as [|[|[|n]]]; [set_solver..|lia].
  - intros sock Hfull. cbn. apply join_room_full. lia.
Qed.

(** An instance of C2: X and Y have joined the room: a third join is refused. *)
Lemma C2_witness :
  let inputs := [("X", JoinRoom "1111111111"); ("Y", JoinRoom "1111111111")] in
  let st := (run init inputs).1 in
  occupancy_of st "1111111111" = 2%nat
  ∧ occupancy_of st "1111111111" ∈ [0; 1; 2]%nat
  ∧ ∀ sock, occupancy_of st "1111111111" = 2%nat →
      step st (sock, JoinRoom "1111111111") = (st, [(sock, roomFull)]).
Proof.
  intros inputs st. split; [vm_compute; reflexivity|].
  apply (C2_occupancy_bounded_and_full_rejected inputs st "1111111111").
  apply list_elem_of_lookup. exists 2%nat. vm_compute. reflexivity.
Defined.

(** C7 as stated fails for a socket already recorded in the room: after X has
    joined the empty room, a second join by X is accepted (occupancy 1) and
    the only notification reports occupancy 1, not 1 + 1. *)
Lemma C7_rejoin_counterexample :
  let st := (run init [("X", JoinRoom "1111111111")]).1 in
  (occupancy_of st "1111111111" < 2)%nat
  ∧ "X" ∈ users_of st "1111111111"
  ∧ (join_room st "X" "1111111111").2 = [("X", roomJoined 1)]
  ∧ ¬ (∀ d, d ∈ (join_room st "X" "1111111111").2 →
         reported_occupancy d.2 = Some (occupancy_of st "1111111111" + 1)%nat).
Proof.
  intros st. split; [vm_compute; lia|].
  split; [apply (bool_decide_unpack _); vm_compute; exact I|].
  assert (Hout : (join_room st "X" "1111111111").2 = [("X", roomJoined 1)])
    by (vm_compute; reflexivity).
  split; [exact Hout|].
  intros Hall. specialize (Hall ("X", roomJoined 1)).
  rewrite Hout in Hall. specialize (Hall ltac:(by left)).
  vm_compute in Hall. discriminate.
Qed.

(** C7, amended: in every state the server can reach, a join on a room whose
    occupancy is below 2 adds the socket to the room's user set, and every
    notification it emits ([roomJoined] to the sender first, [userJoined] to
    the others) carries the size of that set after the insertion: the
    previous occupancy plus 1 when the socket was not yet recorded in the
    room, the previous occupancy when it was; in both cases 1 or 2. *)
Theorem C7_accepted_join_reports_set_size
    (inputs : list Input) (st : State) (sock room : string) :
  st ∈ trace init inputs →
  (occupancy_of st room < 2)%nat →
  let st' := (join_room st sock room).1 in
  let out := (join_room st sock room).2 in
  users_of st' room = users_of st room ∪ {[sock]}
  ∧ sock ∈ users_of st' room
  ∧ occupancy_of st' room = size (users_of st' room)
  ∧ occupancy_of st' room =
      (if decide (sock ∈ users_of st room) then occupancy_of st room
       else S (occupancy_of st room))
  ∧ (1 ≤ occupancy_of st' room ≤ 2)%nat
  ∧ out !! 0%nat = Some (sock, roomJoined (occupancy_of st' room))
  ∧ ∀ d, d ∈ out → reported_occupancy d.2 = Some (occupancy_of st' room).
Proof.
  intros Hin Hfree st' out.
  pose proof (trace_ok inputs init st registry_ok_init Hin) as Hok.
  pose proof (occupancy_of_users st room Hok) as Hocc.
  subst st' out.
  rewrite users_of_join, occupancy_of_join, join_room_out by done.
  split; [done|]. split; [set_solver|]. split; [done|].
  assert (Hnew : size (users_of st room ∪ {[sock]}) =
                 if decide (sock ∈ users_of st room) then occupancy_of st room
                 else S (occupancy_of st room)).
  { case_decide.
    - by rewrite size_add_old, Hocc.
    - by rewrite size_add_new, Hocc. }
  split; [exact Hnew|].
  split; [rewrite Hnew; case_decide; [|lia]|].
  { assert (occupancy_of st room ≠ 0)%nat; [|lia].
    rewrite Hocc. intros Hzero%size_empty_inv. set_solver. }
  split; [done|].
  intros d [->|Hd]%elem_of_cons; [done|].
  unfold socket_to_emit in Hd. apply list_elem_of_fmap in Hd as (r & -> & _).
  done.
Qed.

(** An instance of C7: Y joins the room X is in. *)
Lemma C7_witness :
  let inputs := [("X", JoinRoom "1111111111")] in
  let st := (run init inputs).1 in
  (occupancy_of st "1111111111" < 2)%nat
  ∧ occupancy_of (join_room st "Y" "1111111111").1 "1111111111" = 2%nat
  ∧ ∀ d, d ∈ (join_room st "Y" "1111111111").2 →
      reported_occupancy d.2 = Some 2%nat.
Proof.
  intros inputs st.
  assert (Hin : st ∈ trace init inputs).
  { apply list_elem_of_lookup. exists 1%nat. vm_compute. reflexivity. }
  assert (Hfree : (occupancy_of st "1111111111" < 2)%nat) by (vm_compute; lia).
  destruct (C7_accepted_join_reports_set_size inputs st "Y" "1111111111"
              Hin Hfree) as (_ & _ & _ & Hocc & _ & _ & Hall).
  assert (Htwo : occupancy_of (join_room st "Y" "1111111111").1 "1111111111"
                 = 2%nat) by (vm_compute; reflexivity).
  split; [exact Hfree|]. split; [exact Htwo|].
  intros d Hd. rewrite <- Htwo. exact (Hall d Hd).
Defined.

End Registry.

(** *** Number conversions and the nonce layout *)

Module Nonce.
Import JS WebCrypto Client.

Lemma ToInt32_mod n : ToInt32 n mod 2 ^ 32 = n mod 2 ^ 32.
Proof.
  unfold ToInt32. pose proof (Z.mod_pos_bound n (2 ^ 32) eq_refl) as Hu.
  destruct (n mod 2 ^ 32 <? 2 ^ 31) eqn:Hlt.
  - apply Z.mod_small; lia.
  - replace (n mod 2 ^ 32 - 2 ^ 32) with (n mod 2 ^ 32 + (-1) * 2 ^ 32) by lia.
    rewrite Z.mod_add by lia. apply Z.mod_small; lia.
Qed.

Lemma ToUint32_ToInt32 n : ToUint32 (ToInt32 n) = n mod 2 ^ 32.
Proof. apply ToInt32_mod. Qed.

(** The shift count 32 is masked to 0: [n >> 32] is [ToInt32(n)]. *)
Lemma sar_32 n : sar n 32 = ToInt32 n.
Proof. unfold sar. change (Z.land (ToUint32 32) 31) with 0. apply Z.shiftr_0_r. Qed.

(** [0xFFFFFFFF] converts to -1, all bits set: [n & 0xFFFFFFFF] is
    [ToInt32(n)]. *)
Lemma band_mask n : band n 4294967295 = ToInt32 n.
Proof. unfold band. change (ToInt32 4294967295) with (-1). apply Z.land_m1_r. Qed.

Example iv_of_258 : iv_of 258 = [0; 0; 1; 2; 0; 0; 1; 2; 0; 0; 0; 0].
Proof. reflexivity. Qed.

Example iv_of_2_32_plus_1 :
  iv_of 4294967297 = [0; 0; 0; 1; 0; 0; 0; 1; 0; 0; 0; 0].
Proof. reflexivity. Qed.

(** Both 32-bit words of the nonce hold the counter modulo 2^32; the last
    four bytes stay zero. *)
Lemma iv_of_bytes n :
  iv_of n = be32 (n mod 2 ^ 32) ++ be32 (n mod 2 ^ 32) ++ [0; 0; 0; 0].
Proof.
  unfold iv_of, setUint32. rewrite sar_32, band_mask, ToUint32_ToInt32.
  reflexivity.
Qed.

Lemma iv_of_length n : length (iv_of n) = 12%nat.
Proof. by rewrite iv_of_bytes. Qed.

Lemma iv_of_mod n : iv_of (n mod 2 ^ 32) = iv_of n.
Proof. by rewrite !iv_of_bytes, Z.mod_mod. Qed.

(** The value of four bytes read as a big-endian number. *)
Lemma be32_value u :
  0 ≤ u < 2 ^ 32 →
  match be32 u with
  | [b0; b1; b2; b3] => b0 * 2 ^ 24 + b1 * 2 ^ 16 + b2 * 2 ^ 8 + b3 = u
  | _ => False
  end.
Proof.
  intros Hu. unfold be32.
  change 255 with (Z.ones 8). rewrite !Z.land_ones, !Z.shiftr_div_pow2 by lia.
  change (2 ^ 8) with 256. change (2 ^ 16) with 65536.
  change (2 ^ 24) with 16777216. change (2 ^ 32) with 4294967296 in Hu.
  Z.div_mod_to_equations. lia.
Qed.

Lemma be32_inj u v :
  0 ≤ u < 2 ^ 32 → 0 ≤ v < 2 ^ 32 → be32 u = be32 v → u = v.
Proof.
  intros Hu Hv Heq.
  pose proof (be32_value u Hu) as Hvu. pose proof (be32_value v Hv) as Hvv.
  rewrite Heq in Hvu. unfold be32 in Hvu, Hvv. congruence.
Qed.

(** Counter values that differ modulo 2^32 give different nonces. *)
Lemma iv_of_inj_mod m n : iv_of m = iv_of n → m mod 2 ^ 32 = n mod 2 ^ 32.
Proof.
  rewrite !iv_of_bytes. intros Heq.
  apply (f_equal (take 4)) in Heq. cbn [take be32 app] in Heq.
  apply be32_inj; [by apply Z.mod_pos_bound..|exact Heq].
Qed.

Section Engine.
Context {crypto : SubtleCrypto}.

Lemma generateIV_spec (this : E2EECrypto crypto) :
  generateIV this =
    ({| cryptoKey := cryptoKey this; encryptionKey := encryptionKey this;
        ivCounter := incr (ivCounter this) |},
     iv_of (ivCounter this)).
Proof. reflexivity. Qed.

Lemma typed_set_fill (a b : bytes) :
  typed_set (typed_set (new_buffer (length a + length b)) a 0) b (length a)
  = a ++ b.
Proof.
  unfold typed_set, new_buffer. simpl firstn. simpl app.
  rewrite take_app_length, drop_replicate.
  rewrite drop_app, drop_ge by lia. rewrite drop_replicate.
  replace (length a + length b - length a - (length a + length b - length a))%nat
    with 0%nat by lia.
  by rewrite !app_nil_r.
Qed.

(** With a key set, [encryptFrame] returns the nonce followed by the AES-GCM
    output and advances the counter. *)
Lemma encryptFrame_keyed (this : E2EECrypto crypto) key data :
  cryptoKey this = Some key →
  encryptFrame this data =
    ({| cryptoKey := cryptoKey this; encryptionKey := encryptionKey this;
        ivCounter := incr (ivCounter this) |},
     iv_of (ivCounter this)
       ++ aes_gcm_encrypt key (iv_of (ivCounter this)) data).
Proof.
  intros Hkey. unfold encryptFrame. rewrite Hkey, generateIV_spec.
  cbv beta iota zeta. by rewrite typed_set_fill, Hkey.
Qed.

Lemma iv_prefix_app n (rest : bytes) : iv_prefix (iv_of n ++ rest) = iv_of n.
Proof. unfold iv_prefix. apply take_app_length'. by rewrite iv_of_length. Qed.

(** The [i]-th call of a run of [encryptFrame] calls uses the counter value
    reached after [i] increments. *)
Lemma encryptFrames_lookup (frames : list bytes) :
  ∀ (this : E2EECrypto crypto) key (i : nat) data,
  cryptoKey this = Some key →
  frames !! i = Some data →
  (encryptFrames this frames).2 !! i =
    Some (iv_of (Nat.iter i incr (ivCounter this))
          ++ aes_gcm_encrypt key (iv_of (Nat.iter i incr (ivCounter this)))
               data).
Proof.
  induction frames as [|d rest IH]; intros this key i data Hkey Hget; [done|].
  cbn [encryptFrames]. rewrite (encryptFrame_keyed this key d Hkey).
  set (this1 := {| cryptoKey := cryptoKey this |}).
  specialize (IH this1 key).
  destruct (encryptFrames this1 rest) as [this2 outs].
  destruct i as [|i].
  - injection Hget as ->. reflexivity.
  - rewrite Nat.iter_succ_r. exact (IH i data Hkey Hget).
Qed.

Lemma iter_incr (i : nat) : ∀ c,
  0 ≤ c → c + Z.of_nat i ≤ 2 ^ 53 → Nat.iter i incr c = c + Z.of_nat i.
Proof.
  induction i as [|i IH]; intros c Hc Hle.
  - cbn. lia.
  - rewrite Nat.iter_succ_r. unfold incr at 2.
    destruct (c <? 2 ^ 53) eqn:Hlt; [|lia].
    rewrite IH by lia. lia.
Qed.

End Engine.

End Nonce.

(** *** The frame cipher engine *)

Module FrameCipher.
Import JS WebCrypto Client Nonce.

Lemma mask_involutive (pad : Z) (data : bytes) :
  Z.lxor pad <$> (Z.lxor pad <$> data) = data.
Proof.
  induction data as [|b rest IH]; [done|]. cbn. rewrite IH. f_equal.
  by rewrite <- Z.lxor_assoc, Z.lxor_nilpotent, Z.lxor_0_l.
Qed.

Lemma mask_crypto_correct : AeadCorrect mask_crypto.
Proof.
  intros key iv data. cbn. rewrite decide_True by done.
  by rewrite mask_involutive.
Qed.

Lemma mask_crypto_integrity : AeadIntegrity mask_crypto.
Proof.
  intros key iv [|tag body] Hforged; [done|]. cbn.
  case_decide as Htag; [|done]. exfalso.
  apply (Hforged (Z.lxor (pad_of key iv) <$> body)). cbn.
  by rewrite mask_involutive, Htag.
Qed.

Section Engine.
Context {crypto : SubtleCrypto}.

Lemma decryptFrame_keyed (this : E2EECrypto crypto) key data :
  cryptoKey this = Some key → (12 ≤ length data)%nat →
  decryptFrame this data =
    match aes_gcm_decrypt key (take 12 data) (drop 12 data) with
    | Normal decrypted => Normal decrypted
    | Throw => Normal []
    end.
Proof.
  intros Hkey Hlen. unfold decryptFrame. rewrite Hkey.
  rewrite decide_False by lia. cbv zeta.
  by destruct (aes_gcm_decrypt key (take 12 data) (drop 12 data)).
Qed.

(** The frame [encryptFrame] returns with a key set has at least 12 bytes;
    its first 12 bytes are the nonce and the rest is the AES-GCM output for
    that nonce. *)
Lemma encrypted_frame_split (sender : E2EECrypto crypto) key (p : bytes) :
  cryptoKey sender = Some key →
  let frame := (encryptFrame sender p).2 in
  (12 ≤ length frame)%nat
  ∧ take 12 frame = iv_of (ivCounter sender)
  ∧ drop 12 frame = aes_gcm_encrypt key (iv_of (ivCounter sender)) p.
Proof.
  intros Hkey frame. subst frame.
  rewrite (encryptFrame_keyed sender key p Hkey). cbn [snd].
  rewrite length_app, iv_of_length.
  rewrite take_app_length', drop_app_length' by (by rewrite iv_of_length).
  split; [lia|done].
Qed.

(** C3: with a correct AES-GCM, for every PIN and every frame payload, a
    frame encrypted by an engine that holds the key derived from the PIN and
    decrypted by an engine that holds the same key comes back unchanged,
    whatever the counters of the two engines are. *)
Theorem C3_decrypt_encrypt_roundtrip `{!AeadCorrect crypto}
    (sender receiver : E2EECrypto crypto) (s : string) (p : bytes) :
  let k := (deriveKeyFromPIN new_E2EECrypto s).2 in
  cryptoKey sender = Some k →
  cryptoKey receiver = Some k →
  decryptFrame receiver (encryptFrame sender p).2 = Normal p.
Proof.
  intros k Hs Hr.
  destruct (encrypted_frame_split sender k p Hs) as (Hlen & Hiv & Hct).
  rewrite (decryptFrame_keyed receiver k _ Hr Hlen).
  rewrite Hiv, Hct. by rewrite aead_correct.
Qed.

(** C6: [decryptFrame] always completes normally; for a frame of at least
    12 bytes whose AES-GCM authentication fails under the engine's key it
    returns the empty byte sequence; and, AES-GCM rejecting every ciphertext
    that no encryption under the key and the frame's nonce produces, so does
    it for every frame whose ciphertext portion is not such a ciphertext. *)
Theorem C6_decrypt_fails_closed (this : E2EECrypto crypto) (data : bytes) :
  (∃ out, decryptFrame this data = Normal out)
  ∧ (∀ key,
      cryptoKey this = Some key →
      (12 ≤ length data)%nat →
      aes_gcm_decrypt key (take 12 data) (drop 12 data) = Throw →
      decryptFrame this data = Normal [])
  ∧ (AeadIntegrity crypto →
     ∀ key,
      cryptoKey this = Some key →
      (12 ≤ length data)%nat →
      (∀ p, drop 12 data ≠ aes_gcm_encrypt key (take 12 data) p) →
      decryptFrame this data = Normal []).
Proof.
  split; [|split].
  - unfold decryptFrame. destruct (cryptoKey this) as [key|]; [|by eexists].
    case_decide; [by eexists|]. cbv zeta.
    destruct (aes_gcm_decrypt key (take 12 data) (drop 12 data));
      by eexists.
  - intros key Hkey Hlen Hfail.
    by rewrite (decryptFrame_keyed this key data Hkey Hlen), Hfail.
  - intros Hint key Hkey Hlen Hforged.
    rewrite (decryptFrame_keyed this key data Hkey Hlen).
    by rewrite (aead_integrity key (take 12 data) (drop 12 data) Hforged).
Qed.

(** C8: without a key both [encryptFrame] and [decryptFrame] return their
    input unchanged (and [encryptFrame] leaves the engine as it was); with
    or without a key, [decryptFrame] returns an input shorter than 12 bytes
    unchanged. *)
Theorem C8_passthrough (this : E2EECrypto crypto) (d : bytes) :
  (cryptoKey this = None →
     encryptFrame this d = (this, d) ∧ decryptFrame this d = Normal d)
  ∧ ((length d < 12)%nat → decryptFrame this d = Normal d).
Proof.
  split.
  - intros Hkey. unfold encryptFrame, decryptFrame. by rewrite Hkey.
  - intros Hshort. unfold decryptFrame.
    destruct (cryptoKey this); [|done]. by rewrite decide_True.
Qed.

(** C9: the key [deriveKeyFromPIN] stores and returns depends on the PIN
    only: it is the PBKDF2 derivation over the encoded PIN with the salt
    ["SecureVideoCall2025"], 100000 iterations and SHA-256, as a 256-bit
    AES-GCM key, whatever engine it is called on; and with a correct AES-GCM
    a frame encrypted under one derivation decrypts under the other. *)
Theorem C9_deriveKeyFromPIN_deterministic
    (e1 e2 : E2EECrypto crypto) (s : string) :
  let '(e1', k1) := deriveKeyFromPIN e1 s in
  let '(e2', k2) := deriveKeyFromPIN e2 s in
  k1 = k2
  ∧ k1 = pbkdf2_deriveKey
           {| salt := encode "SecureVideoCall2025";
              iterations := 100000;
              hash := SHA_256 |}
           (encode s) 256
  ∧ 100000 ≤ iterations pbkdf2_params
  ∧ cryptoKey e1' = Some k1 ∧ cryptoKey e2' = Some k2
  ∧ (AeadCorrect crypto →
     ∀ p, decryptFrame e2' (encryptFrame e1' p).2 = Normal p).
Proof.
  unfold deriveKeyFromPIN. cbv beta iota zeta. repeat split; try done.
  intros Hcorrect p.
  set (k := pbkdf2_deriveKey pbkdf2_params (encode s) 256).
  set (sender := {| cryptoKey := Some k; encryptionKey := encryptionKey e1;
                    ivCounter := ivCounter e1 |}).
  set (receiver := {| cryptoKey := Some k; encryptionKey := encryptionKey e2;
                      ivCounter := ivCounter e2 |}).
  destruct (encrypted_frame_split sender k p eq_refl) as (Hlen & Hiv & Hct).
  rewrite (decryptFrame_keyed receiver k _ eq_refl Hlen).
  rewrite Hiv, Hct. by rewrite aead_correct.
Qed.

(** C4: at counter value 1 the nonce [generateIV] returns has the counter in
    bytes 0-3 as well as in bytes 4-7, whereas the two-halves layout has the
    high half, zero, in bytes 0-3. *)
Theorem C4_generateIV_high_word_holds_low_word
    (key encKey : option CryptoKey) :
  let this := {| cryptoKey := key; encryptionKey := encKey; ivCounter := 1 |} in
  (generateIV this).2 = [0; 0; 0; 1; 0; 0; 0; 1; 0; 0; 0; 0]
  ∧ iv_two_halves 1 = [0; 0; 0; 0; 0; 0; 0; 1; 0; 0; 0; 0]
  ∧ take 4 (generateIV this).2 ≠ be32 (1 / 2 ^ 32)
  ∧ ivCounter (generateIV this).1 = 2.
Proof.
  intros this. rewrite generateIV_spec. cbn [fst snd ivCounter].
  split; [reflexivity|]. split; [reflexivity|].
  split; [discriminate|reflexivity].
Qed.

(** For every counter value, both 32-bit words written by [generateIV] hold
    the counter modulo 2^32. *)
Lemma generateIV_bytes (this : E2EECrypto crypto) :
  (generateIV this).2 =
    be32 (ivCounter this mod 2 ^ 32) ++ be32 (ivCounter this mod 2 ^ 32)
      ++ [0; 0; 0; 0].
Proof. rewrite generateIV_spec. apply iv_of_bytes. Qed.

(** The nonce prefix of the [i]-th output of a run of [encryptFrame] calls. *)
Lemma encryptFrames_iv_prefix (this : E2EECrypto crypto) key frames
    (i : nat) data :
  cryptoKey this = Some key →
  frames !! i = Some data →
  iv_prefix <$> (encryptFrames this frames).2 !! i =
    Some (iv_of (Nat.iter i incr (ivCounter this))).
Proof.
  intros Hkey Hget.
  rewrite (encryptFrames_lookup frames this key i data Hkey Hget).
  cbn [fmap option_fmap option_map]. by rewrite iv_prefix_app.
Qed.

(** Among the first 2^32 calls on a fresh keyed engine no nonce repeats. *)
Lemma nonce_unique_below_2_32 (this : E2EECrypto crypto) key frames
    (i j : nat) di dj :
  cryptoKey this = Some key → ivCounter this = 0 →
  frames !! i = Some di → frames !! j = Some dj →
  i ≠ j → Z.of_nat i < 2 ^ 32 → Z.of_nat j < 2 ^ 32 →
  iv_prefix <$> (encryptFrames this frames).2 !! i
  ≠ iv_prefix <$> (encryptFrames this frames).2 !! j.
Proof.
  intros Hkey Hzero Hi Hj Hne Hbi Hbj.
  rewrite (encryptFrames_iv_prefix this key frames i di Hkey Hi).
  rewrite (encryptFrames_iv_prefix this key frames j dj Hkey Hj).
  rewrite Hzero, !iter_incr by lia. intros Heq.
  apply (inj Some), iv_of_inj_mod in Heq. rewrite !Z.mod_small in Heq by lia. lia.
Qed.

(** C5: on a fresh engine armed with a PIN, the call numbered 2^32 (counting
    from 0) produces the same 12-byte prefix as the first call: both are
    twelve zero bytes. *)
Theorem C5_nonce_repeats_after_2_32_calls (s : string) (p q : bytes) :
  let this := (deriveKeyFromPIN new_E2EECrypto s).1 in
  let frames := replicate (Z.to_nat 4294967296) p ++ [q] in
  let outs := (encryptFrames this frames).2 in
  iv_prefix <$> outs !! 0%nat = Some (replicate 12 0)
  ∧ iv_prefix <$> outs !! Z.to_nat 4294967296 = Some (replicate 12 0).
Proof.
  intros this frames outs. subst outs.
  assert (Hkey : cryptoKey this = Some (deriveKeyFromPIN new_E2EECrypto s).2)
    by reflexivity.
  assert (H0 : frames !! 0%nat = Some p).
  { subst frames. rewrite lookup_app_l by (rewrite length_replicate; lia).
    apply lookup_replicate_2. lia. }
  assert (HN : frames !! Z.to_nat 4294967296 = Some q).
  { subst frames. rewrite lookup_app_r by (rewrite length_replicate; lia).
    rewrite length_replicate, Nat.sub_diag. reflexivity. }
  rewrite (encryptFrames_iv_prefix this _ frames _ _ Hkey H0).
  rewrite (encryptFrames_iv_prefix this _ frames _ _ Hkey HN).
  change (ivCounter this) with 0. rewrite !iter_incr by lia.
  rewrite Z2Nat.id by lia. rewrite <- (iv_of_mod (0 + 4294967296)).
  change ((0 + 4294967296) mod 2 ^ 32) with 0.
  split; reflexivity.
Qed.

(** Re-arming after a hang-up: [handleLeave] installs a fresh engine and the
    next [handleJoin] with a valid PIN derives the key on it. *)
Lemma rejoin_engine (app : App crypto) (s : string) (media_ok : bool) :
  valid_pin s = true →
  cryptoRef (handleJoin (setPin (handleLeave app).1 s) media_ok).1
  = (deriveKeyFromPIN new_E2EECrypto s).1.
Proof.
  intros Hvalid. unfold handleJoin. cbn [pin setPin].
  rewrite Hvalid. cbn [negb]. by destruct media_ok.
Qed.

(** C10: two engines created by [new E2EECrypto()] and armed with the same
    PIN hold the same key and start from counter 0, and the [i]-th
    [encryptFrame] call of each, on whatever frames, produces the same
    12-byte nonce prefix; this is the situation after [handleLeave] has
    replaced the engine and [handleJoin] is called again with the PIN. *)
Theorem C10_key_and_nonce_repeat_across_engines
    (app1 app2 : App crypto) (s : string)
    (frames1 frames2 : list bytes) (i : nat) (d1 d2 : bytes) :
  valid_pin s = true →
  frames1 !! i = Some d1 →
  frames2 !! i = Some d2 →
  let e1 := cryptoRef (handleJoin (setPin (handleLeave app1).1 s) true).1 in
  let e2 := cryptoRef (handleJoin (setPin (handleLeave app2).1 s) true).1 in
  e1 = (deriveKeyFromPIN new_E2EECrypto s).1
  ∧ e2 = (deriveKeyFromPIN new_E2EECrypto s).1
  ∧ cryptoKey e1 = Some (deriveKeyFromPIN new_E2EECrypto s).2
  ∧ cryptoKey e2 = cryptoKey e1
  ∧ ivCounter e1 = 0 ∧ ivCounter e2 = 0
  ∧ (∃ iv, length iv = 12%nat
       ∧ iv_prefix <$> (encryptFrames e1 frames1).2 !! i = Some iv
       ∧ iv_prefix <$> (encryptFrames e2 frames2).2 !! i = Some iv).
Proof.
  intros Hvalid H1 H2 e1 e2. subst e1 e2. rewrite !rejoin_engine by done.
  repeat split; try reflexivity.
  set (this := (deriveKeyFromPIN new_E2EECrypto s).1).
  exists (iv_of (Nat.iter i incr (ivCounter this))).
  split; [apply iv_of_length|].
  split; by eapply encryptFrames_iv_prefix.
Qed.

End Engine.

(** An instance of C3: a two-byte frame under the mask cipher, receiver counter 7. *)
Lemma C3_witness :
  let sender : E2EECrypto mask_crypto :=
    (deriveKeyFromPIN new_E2EECrypto "1111111111").1 in
  let receiver : E2EECrypto mask_crypto :=
    {| cryptoKey := cryptoKey sender; encryptionKey := None; ivCounter := 7 |} in
  let k := (deriveKeyFromPIN (crypto := mask_crypto)
              new_E2EECrypto "1111111111").2 in
  cryptoKey sender = Some k ∧ cryptoKey receiver = Some k
  ∧ decryptFrame receiver (encryptFrame sender [104; 105]).2
    = Normal [104; 105].
Proof.
  intros sender receiver k. split; [reflexivity|]. split; [reflexivity|].
  apply (@C3_decrypt_encrypt_roundtrip mask_crypto mask_crypto_correct
           sender receiver "1111111111" [104; 105]); reflexivity.
Defined.

(** An instance of C6: a genuine frame whose tag byte has its low bit flipped. *)
Lemma C6_witness :
  let this : E2EECrypto mask_crypto :=
    (deriveKeyFromPIN new_E2EECrypto "1111111111").1 in
  let genuine := (encryptFrame this [104; 105]).2 in
  let tampered := alter (Z.lxor 1) 12%nat genuine in
  ∃ key,
    cryptoKey this = Some key
    ∧ (12 ≤ length tampered)%nat
    ∧ aes_gcm_decrypt key (take 12 tampered) (drop 12 tampered) = Throw
    ∧ AeadIntegrity mask_crypto
    ∧ (∀ p, drop 12 tampered ≠ aes_gcm_encrypt key (take 12 tampered) p)
    ∧ decryptFrame this tampered = Normal [].
Proof.
  intros this genuine tampered.
  exists (deriveKeyFromPIN (crypto := mask_crypto)
            new_E2EECrypto "1111111111").2.
  assert (Hlen : (12 ≤ length tampered)%nat) by (vm_compute; lia).
  assert (Hforged : ∀ p,
            drop 12 tampered
            ≠ aes_gcm_encrypt
                (deriveKeyFromPIN (crypto := mask_crypto)
                   new_E2EECrypto "1111111111").2
                (take 12 tampered) p).
  { intros p Heq. vm_compute in Heq. discriminate. }
  split; [reflexivity|]. split; [exact Hlen|]. split; [reflexivity|].
  split; [exact mask_crypto_integrity|]. split; [exact Hforged|].
  exact (proj2 (proj2 (C6_decrypt_fails_closed this tampered))
           mask_crypto_integrity _ eq_refl Hlen Hforged).
Defined.

(** An instance of C8: a three-byte frame on an engine without key. *)
Lemma C8_witness :
  let this : E2EECrypto mask_crypto := new_E2EECrypto in
  let d := [1; 2; 3] in
  cryptoKey this = None ∧ (length d < 12)%nat
  ∧ encryptFrame this d = (this, d) ∧ decryptFrame this d = Normal d.
Proof.
  intros this d.
  assert (Hkey : cryptoKey this = None) by reflexivity.
  split; [exact Hkey|]. split; [vm_compute; lia|].
  exact (proj1 (C8_passthrough this d) Hkey).
Defined.

(** An instance of C9: two engines with different counters, same PIN. *)
Lemma C9_witness :
  let e1 : E2EECrypto mask_crypto := new_E2EECrypto in
  let e2 : E2EECrypto mask_crypto :=
    {| cryptoKey := None; encryptionKey := None; ivCounter := 5 |} in
  AeadCorrect mask_crypto
  ∧ (deriveKeyFromPIN e1 "1111111111").2 = (deriveKeyFromPIN e2 "1111111111").2
  ∧ decryptFrame (deriveKeyFromPIN e2 "1111111111").1
      (encryptFrame (deriveKeyFromPIN e1 "1111111111").1 [1; 2; 3]).2
    = Normal [1; 2; 3].
Proof.
  intros e1 e2. split; [exact mask_crypto_correct|].
  pose proof (C9_deriveKeyFromPIN_deterministic e1 e2 "1111111111") as H.
  destruct (deriveKeyFromPIN e1 "1111111111") as [e1' k1].
  destruct (deriveKeyFromPIN e2 "1111111111") as [e2' k2].
  destruct H as (Hk & _ & _ & _ & _ & Hrt).
  split; [exact Hk|]. exact (Hrt mask_crypto_correct [1; 2; 3]).
Defined.

(** An instance of C10: a fresh client and one that hangs up from another call. *)
Lemma C10_witness :
  let app1 : App mask_crypto := initial_App in
  let app2 : App mask_crypto :=
    {| pin := "2222222222"; status := incall;
       cryptoRef := {| cryptoKey := Some ([9] : @CryptoKey mask_crypto);
                       encryptionKey := None; ivCounter := 41 |};
       currentRoomRef := Some "2222222222" |} in
  let e1 :=
    cryptoRef (handleJoin (setPin (handleLeave app1).1 "1111111111") true).1 in
  let e2 :=
    cryptoRef (handleJoin (setPin (handleLeave app2).1 "1111111111") true).1 in
  valid_pin "1111111111" = true
  ∧ cryptoKey e2 = cryptoKey e1
  ∧ ∃ iv, length iv = 12%nat
      ∧ iv_prefix <$> (encryptFrames e1 [[1]; [2]]).2 !! 1%nat = Some iv
      ∧ iv_prefix <$> (encryptFrames e2 [[3]; [4]; [5]]).2 !! 1%nat = Some iv.
Proof.
  intros app1 app2 e1 e2. split; [reflexivity|].
  destruct (C10_key_and_nonce_repeat_across_engines app1 app2 "1111111111"
              [[1]; [2]] [[3]; [4]; [5]] 1%nat [2] [4]
              eq_refl eq_refl eq_refl)
    as (_ & _ & _ & Hk & _ & _ & Hiv).
  split; [exact Hk|exact Hiv].
Defined.

End FrameCipher.

(** *** A rejected join followed by the client's [roomFull] handling *)

Module CallFlow.
Import Signaling WebCrypto Client.

(** C1: with X and Y in room "1111111111", a join by Z is answered with a
    single [roomFull] to Z and leaves the server state as it was; Z's
    [roomFull] listener then runs [handleLeave], which emits [leave-room] for
    that room, and the server's handling of it delivers [userLeft] with
    occupancy 2 to both X and Y while the registry entry stays the same. *)
Theorem C1_rejected_client_leave_reaches_occupants (crypto : SubtleCrypto) :
  let room := "1111111111" in
  let st := (run init [("X", JoinRoom room); ("Y", JoinRoom room)]).1 in
  let joining : App crypto * list ClientMsg :=
    handleJoin (setPin initial_App room) true in
  occupancy_of st room = 2%nat
  ∧ joining.2 = [JoinRoom room]
  ∧ step st ("Z", JoinRoom room) = (st, [("Z", roomFull)])
  ∧ (on_roomFull joining.1).2 = [LeaveRoom room]
  ∧ ("X", userLeft "Z" 2) ∈ (step st ("Z", LeaveRoom room)).2
  ∧ ("Y", userLeft "Z" 2) ∈ (step st ("Z", LeaveRoom room)).2
  ∧ rooms (step st ("Z", LeaveRoom room)).1 = rooms st.
Proof.
  intros room st joining.
  split; [vm_compute; reflexivity|]. split; [reflexivity|].
  split; [vm_compute; reflexivity|]. split; [reflexivity|].
  assert (Hout : (step st ("Z", LeaveRoom room)).2
                 = [("Y", userLeft "Z" 2); ("X", userLeft "Z" 2)])
    by (vm_compute; reflexivity).
  rewrite Hout. split; [set_solver|]. split; [set_solver|].
  vm_compute. reflexivity.
Qed.

End CallFlow.

(** *** Relay, notifications and cleanup on the server *)

Module RelayFacts.
Import Signaling Relay Registry.

Lemma sio_members_insert (sio : gmap string (gset string)) room room' m :
  sio_members (<[room := m]> sio) room'
  = if decide (room = room') then m else sio_members sio room'.
Proof. unfold sio_members. rewrite lookup_insert. by case_decide. Qed.

Lemma sio_members_closed (sio : gmap string (gset string)) sock room :
  sio_members ((λ m : gset string, m ∖ {[sock]}) <$> sio) room
  = sio_members sio room ∖ {[sock]}.
Proof.
  unfold sio_members. rewrite lookup_fmap.
  destruct (sio !! room); cbn; [done|]. by rewrite difference_disjoint_L.
Qed.

Lemma rooms_leave st sock room room' :
  room ≠ room' →
  rooms (handleUserLeave st sock room).1 !! room' = rooms st !! room'.
Proof.
  intros Hne. unfold handleUserLeave.
  destruct (rooms st !! room) as [roomData|]; [|done].
  case_decide; cbn.
  - by rewrite lookup_delete_ne.
  - by rewrite lookup_insert_ne.
Qed.

Lemma rooms_join st sock room room' :
  room ≠ room' →
  rooms (join_room st sock room).1 !! room' = rooms st !! room'.
Proof.
  intros Hne. unfold join_room. case_decide; [done|]. cbn.
  by rewrite lookup_insert_ne.
Qed.

(** After [handleUserLeave] the socket is out of the room's user set, in
    each of its three branches. *)
Lemma users_of_leave st sock room :
  users_of (handleUserLeave st sock room).1 room
  = users_of st room ∖ {[sock]}.
Proof.
  unfold handleUserLeave, users_of at 2.
  destruct (rooms st !! room) as [roomData|] eqn:Hget.
  - case_decide as Hzero; unfold users_of; cbn.
    + rewrite lookup_delete_eq. cbn in Hzero.
      symmetry. by apply leibniz_equiv, size_empty_inv.
    + by rewrite lookup_insert_eq.
  - unfold users_of. cbn. rewrite Hget. by rewrite difference_disjoint_L.
Qed.

Lemma occupancy_of_leave st sock room :
  occupancy_of (handleUserLeave st sock room).1 room
  = size (users_of st room ∖ {[sock]}).
Proof.
  unfold handleUserLeave, users_of.
  destruct (rooms st !! room) as [roomData|] eqn:Hget.
  - case_decide as Hzero; unfold occupancy_of; cbn.
    + rewrite lookup_delete_eq. by cbn in Hzero.
    + by rewrite lookup_insert_eq.
  - unfold occupancy_of. cbn. rewrite Hget.
    by rewrite difference_disjoint_L, size_empty.
Qed.

Lemma users_of_other st st' room' :
  rooms st' !! room' = rooms st !! room' → users_of st' room' = users_of st room'.
Proof. unfold users_of. by intros ->. Qed.

Lemma join_room_sio_ok st sock room :
  sio_ok st → sio_ok (join_room st sock room).1.
Proof.
  intros Hok room'.
  destruct (decide (2 ≤ occupancy_of st room)%nat) as [Hfull|Hfree].
  { rewrite join_room_full by done. apply Hok. }
  destruct (decide (room = room')) as [<-|Hne].
  - rewrite users_of_join by lia. rewrite join_room_accepted by lia. cbn.
    unfold socket_join. rewrite sio_members_insert, decide_True by done.
    apply union_mono_r, Hok.
  - rewrite (users_of_other st) by (by apply rooms_join).
    rewrite join_room_accepted by lia. cbn.
    unfold socket_join. rewrite sio_members_insert, decide_False by done.
    apply Hok.
Qed.

Lemma handleUserLeave_sio_ok st sock room :
  sio_ok st → sio_ok (handleUserLeave st sock room).1.
Proof.
  intros Hok room'. destruct (decide (room = room')) as [<-|Hne].
  - rewrite users_of_leave.
    assert (sio_rooms (handleUserLeave st sock room).1
            = socket_leave (sio_rooms st) sock room) as ->.
    { unfold handleUserLeave. destruct (rooms st !! room); [|done].
      by case_decide. }
    unfold socket_leave. rewrite sio_members_insert, decide_True by done.
    apply difference_mono_r, Hok.
  - rewrite (users_of_other st) by (by apply rooms_leave).
    assert (sio_rooms (handleUserLeave st sock room).1
            = socket_leave (sio_rooms st) sock room) as ->.
    { unfold handleUserLeave. destruct (rooms st !! room); [|done].
      by case_decide. }
    unfold socket_leave. rewrite sio_members_insert, decide_False by done.
    apply Hok.
Qed.

Lemma closed_sio_ok st sock :
  sio_ok st →
  sio_ok {| rooms := rooms st;
            sio_rooms := (λ m : gset string, m ∖ {[sock]}) <$> sio_rooms st;
            currentRoom := currentRoom st |}.
Proof.
  intros Hok room. cbn. rewrite sio_members_closed.
  apply subseteq_difference_l, Hok.
Qed.

Lemma disconnect_sio_ok st sock : sio_ok st → sio_ok (disconnect st sock).1.
Proof.
  intros Hok. unfold disconnect.
  destruct (currentRoom st !! sock) as [room|]; [|by apply closed_sio_ok].
  destruct (truthy room); [|by apply closed_sio_ok].
  by apply handleUserLeave_sio_ok, closed_sio_ok.
Qed.

Lemma step_sio_ok st i : sio_ok st → sio_ok (step st i).1.
Proof.
  destruct i as [sock [room|room|]]; cbn.
  - apply join_room_sio_ok.
  - apply handleUserLeave_sio_ok.
  - apply disconnect_sio_ok.
Qed.

Lemma sio_ok_init : sio_ok init.
Proof. intros room. unfold sio_members. cbn. by rewrite lookup_empty. Qed.

Lemma trace_sio_ok inputs : ∀ st st',
  sio_ok st → st' ∈ trace st inputs → sio_ok st'.
Proof.
  induction inputs as [|i rest IH]; intros st st' Hok Hin; cbn in Hin.
  - apply list_elem_of_singleton in Hin. by subst.
  - apply elem_of_cons in Hin as [->|Hin]; [done|].
    eapply IH; [|exact Hin]. by apply step_sio_ok.
Qed.

(** The two invariants of a state the server can reach. *)
Lemma reachable_ok inputs st :
  st ∈ trace init inputs → registry_ok st ∧ sio_ok st.
Proof.
  intros Hin. split.
  - exact (trace_ok inputs init st registry_ok_init Hin).
  - exact (trace_sio_ok inputs init st sio_ok_init Hin).
Qed.

Lemma users_of_bound st room : registry_ok st → (size (users_of st room) ≤ 2)%nat.
Proof.
  intros Hok. rewrite <- occupancy_of_users by done.
  by apply occupancy_of_bound.
Qed.

Lemma size_remove_member (s : gset string) (x : string) :
  x ∈ s → size (s ∖ {[x]}) = (size s - 1)%nat.
Proof.
  intros Hin. rewrite size_difference by (by apply singleton_subseteq_l).
  by rewrite size_singleton.
Qed.

Lemma size_remove_other (s : gset string) (x : string) :
  x ∉ s → s ∖ {[x]} = s.
Proof. intros Hout. apply difference_disjoint_L. by apply disjoint_singleton_r. Qed.

Lemma elem_of_socket_to_emit sio sock room ev r ev' :
  (r, ev') ∈ socket_to_emit sio sock room ev
  ↔ r ∈ sio_members sio room ∧ r ≠ sock ∧ ev' = ev.
Proof.
  unfold socket_to_emit. rewrite list_elem_of_fmap. split.
  - intros (x & [= -> ->] & Hx).
    apply elem_of_elements, elem_of_difference in Hx as [Hx Hne].
    rewrite elem_of_singleton in Hne. done.
  - intros (Hr & Hne & ->). exists r. split; [done|].
    apply elem_of_elements, elem_of_difference.
    by rewrite elem_of_singleton.
Qed.

Lemma socket_to_emit_length sio sock room ev :
  length (socket_to_emit sio sock room ev)
  = size (sio_members sio room ∖ {[sock]}).
Proof. unfold socket_to_emit. by rewrite length_fmap. Qed.

Lemma handleUserLeave_out st sock room r ev :
  (r, ev) ∈ (handleUserLeave st sock room).2 →
  r ∈ sio_members (sio_rooms st) room ∧ r ≠ sock
  ∧ ev = userLeft sock (size (users_of st room ∖ {[sock]})).
Proof.
  unfold handleUserLeave, users_of.
  destruct (rooms st !! room) as [roomData|]; cbn; [|by intros ?%elem_of_nil].
  case_decide; cbn; [by intros ?%elem_of_nil|].
  by intros ?%elem_of_socket_to_emit.
Qed.

Lemma handleUserLeave_sio st sock room :
  sio_rooms (handleUserLeave st sock room).1
  = socket_leave (sio_rooms st) sock room.
Proof.
  unfold handleUserLeave. destruct (rooms st !! room); [|done].
  by case_decide.
Qed.

Lemma handleUserLeave_currentRoom st sock room :
  currentRoom (handleUserLeave st sock room).1 = delete sock (currentRoom st).
Proof.
  unfold handleUserLeave. destruct (rooms st !! room); [|done].
  by case_decide.
Qed.

Section Payload.
Context {Payload : Type}.


End Payload.




Lemma rooms_disconnect_target st sock :
  rooms (disconnect st sock).1 =
    match currentRoom st !! sock with
    | Some room =>
        if truthy room then rooms (handleUserLeave st sock room).1
        else rooms st
    | None => rooms st
    end.
Proof.
  unfold disconnect. destruct (currentRoom st !! sock) as [room|]; [|done].
  destruct (truthy room); [|done].
  unfold handleUserLeave. cbn [rooms].
  destruct (rooms st !! room); [|done]. by case_decide.
Qed.

(** X3: a [join-room], [leave-room] or [disconnect] changes the registry
    entry of no room other than the one it acts on (the room it names, or
    the socket's [currentRoom] for a disconnect); in particular a join does
    not take the socket out of a room it was recorded in before. *)
Theorem X3_other_rooms_untouched (st : State) (i : Input) (room' : string) :
  target_room st i ≠ Some room' →
  rooms (step st i).1 !! room' = rooms st !! room'.
Proof.
  destruct i as [sock [room|room|]]; cbn; intros Hne.
  - apply rooms_join. congruence.
  - apply rooms_leave. congruence.
  - rewrite rooms_disconnect_target.
    destruct (currentRoom st !! sock) as [room|]; [|done].
    destruct (truthy room); [|done]. apply rooms_leave. congruence.
Qed.

(** An instance of X3: X, recorded in room A, joins room B and stays
    recorded in A. *)
Lemma X3_witness :
  let st := (run init [("X", JoinRoom "1111111111")]).1 in
  let i := ("X", JoinRoom "2222222222") in
  target_room st i ≠ Some "1111111111"
  ∧ rooms (step st i).1 !! "1111111111" = rooms st !! "1111111111"
  ∧ "X" ∈ users_of (step st i).1 "1111111111".
Proof.
  intros st i.
  assert (Hne : target_room st i ≠ Some "1111111111") by discriminate.
  split; [exact Hne|].
  split; [exact (X3_other_rooms_untouched st i "1111111111" Hne)|].
  apply (bool_decide_unpack _). vm_compute. exact I.
Defined.





Lemma truthy_nonempty room : truthy room = true ↔ room ≠ "".
Proof. destruct room; cbn; split; congruence. Qed.

Lemma socket_to_emit_closed sio sock room ev :
  socket_to_emit ((λ m : gset string, m ∖ {[sock]}) <$> sio) sock room ev
  = socket_to_emit sio sock room ev.
Proof.
  unfold socket_to_emit. by rewrite sio_members_closed, difference_twice_L.
Qed.

(** X6: a [disconnect] of a socket whose [currentRoom] is a non-empty room
    name changes the registry and [currentRoom] and emits the notifications
    exactly as a [leave-room] for that room would; when [currentRoom] is
    unset, or is the empty string, the registry is left as it was and
    nothing is emitted; in every case the socket is afterwards in no
    Socket.IO room. *)
Theorem X6_disconnect_is_leave_of_currentRoom (st : State) (sock : string) :
  (∀ room, currentRoom st !! sock = Some room → room ≠ "" →
     rooms (disconnect st sock).1 = rooms (leave_room st sock room).1
     ∧ currentRoom (disconnect st sock).1
       = currentRoom (leave_room st sock room).1
     ∧ (disconnect st sock).2 = (leave_room st sock room).2)
  ∧ (currentRoom st !! sock = None ∨ currentRoom st !! sock = Some "" →
     rooms (disconnect st sock).1 = rooms st
     ∧ currentRoom (disconnect st sock).1 = currentRoom st
     ∧ (disconnect st sock).2 = [])
  ∧ (∀ room', sock ∉ sio_members (sio_rooms (disconnect st sock).1) room').
Proof.
  split; [|split].
  - intros room Hcur Hne%truthy_nonempty.
    unfold disconnect, leave_room. rewrite Hcur, Hne.
    unfold handleUserLeave. cbn [rooms sio_rooms currentRoom].
    destruct (rooms st !! room) as [roomData|]; [|done].
    case_decide; [done|]. cbn [fst snd rooms currentRoom].
    by rewrite socket_to_emit_closed.
  - unfold disconnect. by intros [->| ->].
  - intros room'. unfold disconnect.
    assert (Hclosed : ∀ r,
      sock ∉ sio_members
               ((λ m : gset string, m ∖ {[sock]}) <$> sio_rooms st) r).
    { intros r. rewrite sio_members_closed, elem_of_difference,
        elem_of_singleton. tauto. }
    destruct (currentRoom st !! sock) as [room|]; [|apply Hclosed].
    destruct (truthy room); [|apply Hclosed].
    rewrite handleUserLeave_sio. cbn [sio_rooms]. unfold socket_leave.
    rewrite sio_members_insert. case_decide; [|apply Hclosed].
    rewrite elem_of_difference, elem_of_singleton. tauto.
Qed.

(** An instance of X6: Y's connection drops while in a call with X; a socket
    that joined the room named by the empty string is not cleaned up. *)
Lemma X6_witness :
  let st := (run init [("X", JoinRoom "1111111111");
                       ("Y", JoinRoom "1111111111")]).1 in
  let st0 := (run init [("W", JoinRoom "")]).1 in
  currentRoom st !! "Y" = Some "1111111111"
  ∧ (disconnect st "Y").2 = (leave_room st "Y" "1111111111").2
  ∧ (disconnect st "Y").2 = [("X", userLeft "Y" 1)]
  ∧ currentRoom st0 !! "W" = Some ""
  ∧ rooms (disconnect st0 "W").1 = rooms st0
  ∧ occupancy_of (disconnect st0 "W").1 "" = 1%nat.
Proof.
  intros st st0.
  assert (Hcur : currentRoom st !! "Y" = Some "1111111111")
    by (vm_compute; reflexivity).
  assert (Hcur0 : currentRoom st0 !! "W" = Some "")
    by (vm_compute; reflexivity).
  destruct (X6_disconnect_is_leave_of_currentRoom st "Y") as (Hleave & _ & _).
  destruct (Hleave "1111111111" Hcur ltac:(discriminate)) as (_ & _ & Hout).
  destruct (X6_disconnect_is_leave_of_currentRoom st0 "W") as (_ & Hnone & _).
  destruct (Hnone (or_intror Hcur0)) as (Hrooms & _ & _).
  split; [exact Hcur|]. split; [exact Hout|].
  split; [vm_compute; reflexivity|]. split; [exact Hcur0|].
  split; [exact Hrooms|]. vm_compute. reflexivity.
Defined.

(** X7: [handleUserLeave] clears the socket's [currentRoom] whichever room
    the [leave-room] named, so a [disconnect] that follows a [leave-room]
    changes nothing in the registry and emits nothing: the socket stays
    recorded in every other room it had joined. *)
Theorem X7_disconnect_after_leave_keeps_registry
    (st : State) (sock room : string) :
  let st1 := (leave_room st sock room).1 in
  rooms (disconnect st1 sock).1 = rooms st1
  ∧ (disconnect st1 sock).2 = []
  ∧ ∀ room', room' ≠ room →
      users_of (disconnect st1 sock).1 room' = users_of st room'.
Proof.
  intros st1.
  assert (Hcur : currentRoom st1 !! sock = None).
  { subst st1. unfold leave_room.
    rewrite handleUserLeave_currentRoom. apply lookup_delete_eq. }
  assert (Hrooms : rooms (disconnect st1 sock).1 = rooms st1)
    by (unfold disconnect; by rewrite Hcur).
  split; [exact Hrooms|]. split; [unfold disconnect; by rewrite Hcur|].
  intros room' Hne. unfold users_of. rewrite Hrooms. subst st1.
  unfold leave_room. by rewrite rooms_leave.
Qed.

(** X8: in every state the server can reach, a room has an entry in [rooms]
    exactly when its occupancy is at least 1, so the [activeRooms] figure of
    the health endpoint is the number of rooms with a recorded user, and it
    is 0 exactly when every room is empty. *)
Theorem X8_activeRooms_counts_occupied_rooms
    (inputs : list Input) (st : State) :
  st ∈ trace init inputs →
  (∀ room, is_Some (rooms st !! room) ↔ (1 ≤ occupancy_of st room)%nat)
  ∧ (∃ occupied : gset string,
       (∀ room, room ∈ occupied ↔ (1 ≤ occupancy_of st room)%nat)
       ∧ activeRooms st = size occupied)
  ∧ (activeRooms st = 0%nat ↔ ∀ room, occupancy_of st room = 0%nat).
Proof.
  intros [Hreg _]%reachable_ok.
  assert (Hentry : ∀ room,
            is_Some (rooms st !! room) ↔ (1 ≤ occupancy_of st room)%nat).
  { intros room. unfold occupancy_of.
    destruct (rooms st !! room) as [roomData|] eqn:Hget.
    - destruct (Hreg room roomData Hget). split; [lia|eauto].
    - split; [by intros [? ?]|lia]. }
  split; [exact Hentry|]. split.
  - exists (dom (rooms st)). split.
    + intros room. by rewrite elem_of_dom.
    + unfold activeRooms. by rewrite size_dom.
  - unfold activeRooms. rewrite map_size_empty_iff, map_empty. split.
    + intros Hnone room. unfold occupancy_of. by rewrite Hnone.
    + intros Hzero room. specialize (Hentry room). rewrite Hzero in Hentry.
      destruct (rooms st !! room); [|done].
      assert (1 ≤ 0)%nat by (apply Hentry; eauto). lia.
Qed.

(** An instance of X8: after both users of the only room have left, the
    count is back to 0. *)
Lemma X8_witness :
  let inputs := [("X", JoinRoom "1111111111"); ("Y", JoinRoom "1111111111");
                 ("X", LeaveRoom "1111111111"); ("Y", Disconnect)] in
  let st := (run init inputs).1 in
  st ∈ trace init inputs
  ∧ activeRooms st = 0%nat
  ∧ ∀ room, occupancy_of st room = 0%nat.
Proof.
  intros inputs st.
  assert (Hin : st ∈ trace init inputs).
  { apply list_elem_of_lookup. exists 4%nat. vm_compute. reflexivity. }
  assert (Hzero : activeRooms st = 0%nat) by (vm_compute; reflexivity).
  destruct (X8_activeRooms_counts_occupied_rooms inputs st Hin)
    as (_ & _ & Hiff).
  split; [exact Hin|]. split; [exact Hzero|]. exact (proj1 Hiff Hzero).
Defined.

(** X9: in every state the server can reach, a join accepted for a socket
    not yet recorded in the room followed by that socket's [leave-room] for
    the same room gives back the [rooms] map as it was before the join. *)
Theorem X9_join_then_leave_restores_registry
    (inputs : list Input) (st : State) (sock room : string) :
  st ∈ trace init inputs →
  sock ∉ users_of st room →
  (occupancy_of st room < 2)%nat →
  rooms (leave_room (join_room st sock room).1 sock room).1 = rooms st.
Proof.
  intros [Hreg _]%reachable_ok Hnew Hfree.
  pose proof (occupancy_of_users st room Hreg) as Hocc.
  rewrite join_room_accepted by done. cbv zeta.
  unfold leave_room, handleUserLeave. cbn [fst rooms].
  rewrite lookup_insert_eq. cbn [users occupancy].
  assert (Hback : (users_of st room ∪ {[sock]}) ∖ {[sock]} = users_of st room).
  { rewrite difference_union_distr_l_L, difference_diag_L, union_empty_r_L.
    by apply size_remove_other. }
  rewrite Hback.
  unfold users_of, occupancy_of in *.
  destruct (rooms st !! room) as [roomData|] eqn:Hget.
  - destruct (Hreg room roomData Hget) as [Hsize Hrange].
    rewrite decide_False by lia. cbn.
    rewrite insert_insert_eq. apply insert_id. rewrite Hget. f_equal.
    destruct roomData as [u o]. cbn in *. by subst.
  - rewrite decide_True by (by rewrite size_empty). cbn.
    rewrite delete_insert_eq. by apply delete_id.
Qed.

(** An instance of X9: Y joins the room X is in and leaves again. *)
Lemma X9_witness :
  let inputs := [("X", JoinRoom "1111111111")] in
  let st := (run init inputs).1 in
  st ∈ trace init inputs
  ∧ ("Y" ∉ users_of st "1111111111")
  ∧ (occupancy_of st "1111111111" < 2)%nat
  ∧ rooms (leave_room (join_room st "Y" "1111111111").1 "Y" "1111111111").1
    = rooms st.
Proof.
  intros inputs st.
  assert (Hin : st ∈ trace init inputs).
  { apply list_elem_of_lookup. exists 1%nat. vm_compute. reflexivity. }
  assert (Hnew : "Y" ∉ users_of st "1111111111").
  { apply (bool_decide_unpack _). vm_compute. exact I. }
  assert (Hfree : (occupancy_of st "1111111111" < 2)%nat)
    by (vm_compute; lia).
  split; [exact Hin|]. split; [exact Hnew|]. split; [exact Hfree|].
  exact (X9_join_then_leave_restores_registry inputs st "Y" "1111111111"
           Hin Hnew Hfree).
Defined.

End RelayFacts.

(** *** Nonces, frame streams and the call handlers on the client *)

Module PipelineFacts.
Import JS WebCrypto Client Nonce FrameCipher Pipeline.

Lemma be32_bytes u : Forall is_byte (be32 u).
Proof.
  unfold be32, is_byte. change 255 with (Z.ones 8).
  repeat constructor; rewrite Z.land_ones by lia; by apply Z.mod_pos_bound.
Qed.

Lemma valid_pin_length p : valid_pin p = true → String.length p = 10%nat.
Proof.
  unfold valid_pin. intros [Hlen _]%andb_prop. by apply Nat.eqb_eq.
Qed.

Lemma valid_pin_truthy p : valid_pin p = true → Signaling.truthy p = true.
Proof. intros Hlen%valid_pin_length. by destruct p. Qed.

Lemma encode_length p : length (encode p) = String.length p.
Proof.
  unfold encode. rewrite length_fmap.
  induction p as [|a p IH]; cbn; [done|]. by rewrite IH.
Qed.

Lemma valid_pin_digits p :
  valid_pin p = true → Forall (λ b, 48 ≤ b ≤ 57) (encode p).
Proof.
  unfold valid_pin, encode. intros [_ Hall]%andb_prop.
  induction (String.list_ascii_of_string p) as [|a l IH]; cbn; [done|].
  cbn in Hall. apply andb_prop in Hall as [Ha Hl].
  constructor; [|by apply IH].
  unfold is_digit in Ha. apply andb_prop in Ha as [Hlo Hhi].
  apply N.leb_le in Hlo, Hhi. lia.
Qed.

Section Engine.
Context {crypto : SubtleCrypto}.

(** X10: the nonces [generateIV] returns for two engines are equal exactly
    when the two counters are congruent modulo 2^32; every nonce has 12
    entries, each a byte value, its bytes 0-3 repeat in bytes 4-7 and its
    bytes 8-11 are zero. *)
Theorem X10_nonce_determined_by_counter_mod_2_32
    (a b : E2EECrypto crypto) :
  ((generateIV a).2 = (generateIV b).2
   ↔ ivCounter a mod 2 ^ 32 = ivCounter b mod 2 ^ 32)
  ∧ length (generateIV a).2 = 12%nat
  ∧ Forall is_byte (generateIV a).2
  ∧ take 4 (generateIV a).2 = take 4 (drop 4 (generateIV a).2)
  ∧ drop 8 (generateIV a).2 = [0; 0; 0; 0].
Proof.
  rewrite !generateIV_spec. cbn [snd]. split; [split|].
  - apply iv_of_inj_mod.
  - intros Heq. by rewrite <- (iv_of_mod (ivCounter a)), Heq, iv_of_mod.
  - rewrite iv_of_bytes. split; [done|]. split; [|done].
    apply Forall_app. split; [apply be32_bytes|].
    apply Forall_app. split; [apply be32_bytes|].
    unfold is_byte. repeat constructor; lia.
Qed.

Lemma sender_transform_keyed (this : E2EECrypto crypto) key data :
  cryptoKey this = Some key →
  sender_transform this data =
    ((encryptFrame this data).1, Some (encryptFrame this data).2).
Proof.
  intros Hkey. unfold sender_transform.
  destruct (encryptFrame this data) as [this' out]. by rewrite Hkey.
Qed.

Lemma encryptFrame_key (this : E2EECrypto crypto) key data :
  cryptoKey this = Some key →
  cryptoKey (encryptFrame this data).1 = Some key.
Proof. intros Hkey. by rewrite (encryptFrame_keyed this key data Hkey). Qed.

Lemma encryptFrames_cons_state (this : E2EECrypto crypto) d rest :
  (encryptFrames this (d :: rest)).1
  = (encryptFrames (encryptFrame this d).1 rest).1.
Proof.
  cbn [encryptFrames]. destruct (encryptFrame this d) as [this1 out].
  cbn [fst snd]. by destruct (encryptFrames this1 rest).
Qed.

Lemma encryptFrames_cons_out (this : E2EECrypto crypto) d rest :
  (encryptFrames this (d :: rest)).2
  = (encryptFrame this d).2 :: (encryptFrames (encryptFrame this d).1 rest).2.
Proof.
  cbn [encryptFrames]. destruct (encryptFrame this d) as [this1 out].
  cbn [fst snd]. by destruct (encryptFrames this1 rest).
Qed.

(** X11: a run of [encryptFrame] calls on an engine that holds a key keeps
    the key, returns one frame of at least 12 bytes per input frame and,
    while the counter stays at or below 2^53, advances the counter by the
    number of frames; on an engine without a key the run returns the frames
    unchanged and leaves the engine as it was. *)
Theorem X11_encrypt_stream_counter
    (this : E2EECrypto crypto) (frames : list bytes) :
  (∀ key, cryptoKey this = Some key →
     let this' := (encryptFrames this frames).1 in
     let outs := (encryptFrames this frames).2 in
     cryptoKey this' = Some key
     ∧ length outs = length frames
     ∧ Forall (λ f, (12 ≤ length f)%nat) outs
     ∧ (0 ≤ ivCounter this →
        ivCounter this + Z.of_nat (length frames) ≤ 2 ^ 53 →
        ivCounter this' = ivCounter this + Z.of_nat (length frames)))
  ∧ (cryptoKey this = None → encryptFrames this frames = (this, frames)).
Proof.
  split.
  - intros key. revert this.
    induction frames as [|d rest IH]; intros this Hkey; cbv zeta.
    { cbn. repeat split; [done|done|lia]. }
    rewrite encryptFrames_cons_state, encryptFrames_cons_out.
    pose proof (encryptFrame_keyed this key d Hkey) as Henc.
    assert (Hctr1 : ivCounter (encryptFrame this d).1 = incr (ivCounter this))
      by (by rewrite Henc).
    assert (Hout1 : (12 ≤ length (encryptFrame this d).2)%nat).
    { rewrite Henc. cbn [snd]. rewrite length_app, iv_of_length. lia. }
    destruct (IH (encryptFrame this d).1 (encryptFrame_key this key d Hkey))
      as (Hk & Hlen & Hall & Hctr).
    split; [done|]. split; [by rewrite !length_cons, Hlen|].
    split; [by constructor|].
    intros Hpos Hmax. rewrite length_cons in Hmax |- *.
    assert (Hincr : incr (ivCounter this) = ivCounter this + 1).
    { unfold incr. destruct (ivCounter this <? 2 ^ 53) eqn:Hlt; lia. }
    rewrite Hctr; rewrite Hctr1, Hincr; lia.
  - intros Hnone. induction frames as [|d rest IH]; [done|].
    cbn [encryptFrames]. unfold encryptFrame at 1. rewrite Hnone.
    by rewrite IH.
Qed.

(** X12: with a correct AES-GCM, the frames a sender's transform stream
    puts on the wire with a key set, taken through the transform stream of
    a receiver that holds the same key, come out as the frames that went
    in, one for one and in order, whatever the two counters are. *)
Theorem X12_stream_roundtrip `{!AeadCorrect crypto}
    (sender receiver : E2EECrypto crypto) (key : CryptoKey)
    (frames : list bytes) :
  cryptoKey sender = Some key →
  cryptoKey receiver = Some key →
  ∃ wire,
    (sender_pipe sender frames).2 = Some <$> wire
    ∧ receiver_pipe receiver wire = Normal frames.
Proof.
  intros Hs Hr. revert sender Hs.
  induction frames as [|d rest IH]; intros sender Hs.
  { by exists []. }
  cbn [sender_pipe]. rewrite (sender_transform_keyed sender key d Hs).
  destruct (IH (encryptFrame sender d).1 (encryptFrame_key sender key d Hs))
    as (wire & Hwire & Hback).
  destruct (sender_pipe (encryptFrame sender d).1 rest) as [this2 outs].
  cbn [snd] in Hwire. subst outs.
  exists ((encryptFrame sender d).2 :: wire). split; [done|].
  cbn [receiver_pipe]. unfold receiver_transform.
  destruct (encrypted_frame_split sender key d Hs) as (Hlen & Hiv & Hct).
  rewrite (decryptFrame_keyed receiver key _ Hr Hlen), Hiv, Hct, aead_correct.
  cbn [bind]. by rewrite Hback.
Qed.

(** X13: the receiver's transform stream never fails and never drops a
    chunk: it enqueues exactly one chunk per incoming chunk, in order, each
    carrying what [decryptFrame] returned for it; so a chunk of at least 12
    bytes that AES-GCM rejects under the engine's key is enqueued with
    empty data. *)
Theorem X13_receiver_stream_keeps_every_chunk
    (this : E2EECrypto crypto) (chunks : list bytes) :
  ∃ outs,
    receiver_pipe this chunks = Normal outs
    ∧ length outs = length chunks
    ∧ Forall2 (λ d out, decryptFrame this d = Normal out) chunks outs
    ∧ ∀ (i : nat) d key,
        chunks !! i = Some d →
        cryptoKey this = Some key →
        (12 ≤ length d)%nat →
        aes_gcm_decrypt key (take 12 d) (drop 12 d) = Throw →
        outs !! i = Some [].
Proof.
  assert (Htotal : ∀ d, ∃ out, decryptFrame this d = Normal out).
  { intros d. unfold decryptFrame.
    destruct (cryptoKey this) as [key|]; [|by eexists].
    case_decide; [by eexists|]. cbv zeta.
    destruct (aes_gcm_decrypt key (take 12 d) (drop 12 d)); by eexists. }
  assert (Hpipe : ∃ outs,
            receiver_pipe this chunks = Normal outs
            ∧ Forall2 (λ d out, decryptFrame this d = Normal out) chunks outs).
  { induction chunks as [|d rest (outs & Hrest & Hall)].
    - exists []. by split; [|constructor].
    - destruct (Htotal d) as [out Hout]. exists (out :: outs).
      cbn [receiver_pipe]. unfold receiver_transform.
      rewrite Hout. cbn [bind]. rewrite Hrest. cbn [bind].
      split; [done|]. by constructor. }
  destruct Hpipe as (outs & Hrun & Hall). exists outs.
  split; [done|]. split; [symmetry; by eapply Forall2_length|].
  split; [done|].
  intros i d key Hd Hkey Hlen Hfail.
  destruct (Forall2_lookup_l _ _ _ _ _ Hall Hd) as (out & Hout & Hdec).
  rewrite (decryptFrame_keyed this key d Hkey Hlen), Hfail in Hdec.
  by injection Hdec as <-.
Qed.

(** X14: [handleJoin] emits at most one message, a [join-room] for the PIN,
    and does so exactly when the PIN passes the validity check and media was
    acquired; the PIN then encodes to ten bytes between 48 and 57, is stored
    as [currentRoomRef], and the engine holds the key derived from it.  With
    a PIN that fails the check the state is returned untouched. *)
Theorem X14_join_room_needs_valid_pin (app : App crypto) (media_ok : bool) :
  let app' := (handleJoin app media_ok).1 in
  let out := (handleJoin app media_ok).2 in
  (out = [Signaling.JoinRoom (pin app)]
   ↔ valid_pin (pin app) = true ∧ media_ok = true)
  ∧ (out ≠ [Signaling.JoinRoom (pin app)] → out = [])
  ∧ (valid_pin (pin app) = false → app' = app)
  ∧ (valid_pin (pin app) = true →
     length (encode (pin app)) = 10%nat
     ∧ Forall (λ b, 48 ≤ b ≤ 57) (encode (pin app))
     ∧ currentRoomRef app' = Some (pin app)
     ∧ cryptoKey (cryptoRef app')
       = Some (pbkdf2_deriveKey pbkdf2_params (encode (pin app)) 256)
     ∧ status app' = (if media_ok then connecting else idle)).
Proof.
  intros app' out. subst app' out. unfold handleJoin.
  destruct (valid_pin (pin app)) eqn:Hvalid; cbn [negb].
  - destruct media_ok; cbn [negb fst snd].
    + split; [by split|]. split; [done|]. split; [done|]. intros _.
      rewrite encode_length, (valid_pin_length _ Hvalid).
      by split; [|split; [apply valid_pin_digits|]].
    + split; [split; [done|by intros [_ ?]]|]. split; [done|].
      split; [done|]. intros _.
      rewrite encode_length, (valid_pin_length _ Hvalid).
      by split; [|split; [apply valid_pin_digits|]].
  - cbn [fst snd]. split; [split; [done|by intros [? _]]|]. done.
Qed.

(** X15: [handleLeave] puts the call state back to idle with an empty PIN,
    no room and a fresh engine without key, so frames then pass through
    [encryptFrame] unchanged and a second [handleLeave] emits nothing; it
    emits one [leave-room] exactly when [currentRoomRef] held a non-empty
    room name, which after a [handleJoin] with a valid PIN is the case
    whether or not media was acquired. *)
Theorem X15_handleLeave_resets_the_call (app : App crypto) :
  let app' := (handleLeave app).1 in
  (pin app' = "" ∧ status app' = idle ∧ currentRoomRef app' = None
   ∧ cryptoRef app' = new_E2EECrypto)
  ∧ (∀ d, encryptFrame (cryptoRef app') d = (cryptoRef app', d))
  ∧ (handleLeave app').2 = []
  ∧ (∀ room, currentRoomRef app = Some room → room ≠ "" →
       (handleLeave app).2 = [Signaling.LeaveRoom room])
  ∧ (currentRoomRef app = None ∨ currentRoomRef app = Some "" →
       (handleLeave app).2 = [])
  ∧ (∀ p media_ok, valid_pin p = true →
       (handleLeave (handleJoin (setPin app p) media_ok).1).2
       = [Signaling.LeaveRoom p]).
Proof.
  intros app'. subst app'. unfold handleLeave at 1 2 3 4 5 6 7.
  cbn [fst pin status currentRoomRef cryptoRef].
  split; [done|]. split; [done|]. split; [done|].
  split; [|split].
  - intros room Hroom Hne. unfold handleLeave. rewrite Hroom. cbn [snd].
    by destruct room.
  - unfold handleLeave. by intros [->| ->].
  - intros p media_ok Hvalid. unfold handleJoin. cbn [pin setPin].
    rewrite Hvalid. cbn [negb].
    destruct media_ok; cbn [negb fst]; unfold handleLeave;
      cbn [currentRoomRef snd]; by rewrite (valid_pin_truthy _ Hvalid).
Qed.

End Engine.

(** An instance of X11: three frames on an engine armed with a PIN. *)
Lemma X11_witness :
  let this : E2EECrypto mask_crypto :=
    (deriveKeyFromPIN new_E2EECrypto "1111111111").1 in
  let frames := [[1]; [2]; [3]] in
  (∃ key, cryptoKey this = Some key)
  ∧ 0 ≤ ivCounter this
  ∧ ivCounter this + Z.of_nat (length frames) ≤ 2 ^ 53
  ∧ ivCounter (encryptFrames this frames).1 = 3
  ∧ encryptFrames (new_E2EECrypto (crypto := mask_crypto)) frames
    = (new_E2EECrypto, frames).
Proof.
  intros this frames.
  destruct (X11_encrypt_stream_counter this frames) as [Hkeyed _].
  destruct (X11_encrypt_stream_counter
              (new_E2EECrypto (crypto := mask_crypto)) frames) as [_ Hplain].
  destruct (Hkeyed _ eq_refl) as (_ & _ & _ & Hctr).
  assert (Hpos : 0 ≤ ivCounter this) by (vm_compute; discriminate).
  assert (Hmax : ivCounter this + Z.of_nat (length frames) ≤ 2 ^ 53)
    by (vm_compute; discriminate).
  split; [by eexists|]. split; [exact Hpos|]. split; [exact Hmax|].
  split; [exact (Hctr Hpos Hmax)|exact (Hplain eq_refl)].
Defined.

(** An instance of X12: two frames from an armed sender to a receiver whose
    counter is 9. *)
Lemma X12_witness :
  let sender : E2EECrypto mask_crypto :=
    (deriveKeyFromPIN new_E2EECrypto "1111111111").1 in
  let receiver : E2EECrypto mask_crypto :=
    {| cryptoKey := cryptoKey sender; encryptionKey := None; ivCounter := 9 |} in
  let frames := [[1; 2]; [3]] in
  AeadCorrect mask_crypto
  ∧ cryptoKey receiver = cryptoKey sender
  ∧ ∃ wire,
      (sender_pipe sender frames).2 = Some <$> wire
      ∧ receiver_pipe receiver wire = Normal frames.
Proof.
  intros sender receiver frames.
  split; [exact mask_crypto_correct|]. split; [reflexivity|].
  exact (@X12_stream_roundtrip mask_crypto mask_crypto_correct
           sender receiver _ frames eq_refl eq_refl).
Defined.

(** An instance of X13: a frame with a flipped tag bit followed by a
    three-byte chunk. *)
Lemma X13_witness :
  let this : E2EECrypto mask_crypto :=
    (deriveKeyFromPIN new_E2EECrypto "1111111111").1 in
  let tampered := alter (Z.lxor 1) 12%nat (encryptFrame this [104; 105]).2 in
  let chunks := [tampered; [1; 2; 3]] in
  ∃ key outs,
    cryptoKey this = Some key
    ∧ (12 ≤ length tampered)%nat
    ∧ aes_gcm_decrypt key (take 12 tampered) (drop 12 tampered) = Throw
    ∧ receiver_pipe this chunks = Normal outs
    ∧ outs !! 0%nat = Some []
    ∧ length outs = 2%nat.
Proof.
  intros this tampered chunks.
  destruct (X13_receiver_stream_keeps_every_chunk this chunks)
    as (outs & Hrun & Hlen & _ & Hfail).
  assert (Hlong : (12 ≤ length tampered)%nat) by (vm_compute; lia).
  exists (deriveKeyFromPIN (crypto := mask_crypto)
            new_E2EECrypto "1111111111").2, outs.
  split; [reflexivity|]. split; [exact Hlong|]. split; [reflexivity|].
  split; [exact Hrun|].
  split; [exact (Hfail 0%nat tampered _ eq_refl eq_refl Hlong eq_refl)|].
  exact Hlen.
Defined.

(** An instance of X14: a ten-digit PIN with media, and a nine-digit one. *)
Lemma X14_witness :
  let app : App mask_crypto := setPin initial_App "1111111111" in
  let short : App mask_crypto := setPin initial_App "111111111" in
  valid_pin (pin app) = true
  ∧ (handleJoin app true).2 = [Signaling.JoinRoom "1111111111"]
  ∧ currentRoomRef (handleJoin app true).1 = Some "1111111111"
  ∧ valid_pin (pin short) = false
  ∧ (handleJoin short true).1 = short.
Proof.
  intros app short.
  destruct (X14_join_room_needs_valid_pin app true)
    as (Hiff & _ & _ & Hvalid).
  destruct (X14_join_room_needs_valid_pin short true)
    as (_ & _ & Hinvalid & _).
  destruct (Hvalid eq_refl) as (_ & _ & Hroom & _).
  split; [reflexivity|]. split; [exact (proj2 Hiff (conj eq_refl eq_refl))|].
  split; [exact Hroom|]. split; [reflexivity|exact (Hinvalid eq_refl)].
Defined.

(** An instance of X15: hanging up after a join whose media acquisition
    failed. *)
Lemma X15_witness :
  let app : App mask_crypto := initial_App in
  valid_pin "1111111111" = true
  ∧ (handleJoin (setPin app "1111111111") false).2 = []
  ∧ (handleLeave (handleJoin (setPin app "1111111111") false).1).2
    = [Signaling.LeaveRoom "1111111111"].
Proof.
  intros app.
  destruct (X15_handleLeave_resets_the_call app)
    as (_ & _ & _ & _ & _ & Hleave).
  split; [reflexivity|]. split; [reflexivity|].
  exact (Hleave "1111111111" false eq_refl).
Defined.

End PipelineFacts.

(** *** Two clients, one PIN *)

Module Rendezvous.
Import Signaling Registry RelayFacts JS WebCrypto Client FrameCipher Pipeline
  PipelineFacts.

Lemma join_empty_room (x p : string) :
  join_room init x p
  = ({| rooms := {[p := {| users := {[x]}; occupancy := 1 |}]};
        sio_rooms := {[p := {[x]}]};
        currentRoom := {[x := p]} |},
     [(x, roomJoined 1)]).
Proof.
  unfold join_room, get_roomData, socket_join, socket_to_emit, sio_members.
  cbn [rooms sio_rooms currentRoom init]. rewrite !lookup_empty.
  cbn [default users occupancy]. rewrite decide_False by lia. cbv zeta.
  rewrite lookup_insert_eq. cbn [default].
  rewrite !union_empty_l_L, difference_diag_L, elements_empty, size_singleton.
  reflexivity.
Qed.

Lemma join_second (x y p : string) :
  x ≠ y →
  let st1 := (join_room init x p).1 in
  users_of (join_room st1 y p).1 p = {[x; y]}
  ∧ occupancy_of (join_room st1 y p).1 p = 2%nat
  ∧ (join_room st1 y p).2 = [(y, roomJoined 2); (x, userJoined y 2)].
Proof.
  intros Hne st1. subst st1. rewrite join_empty_room. cbn [fst].
  set (st1 := {| rooms := {[p := {| users := {[x]}; occupancy := 1 |}]} |}).
  assert (Hocc : occupancy_of st1 p = 1%nat).
  { unfold occupancy_of, st1. cbn [rooms]. by rewrite lookup_singleton_eq. }
  assert (Husers : users_of st1 p = {[x]}).
  { unfold users_of, st1. cbn [rooms]. by rewrite lookup_singleton_eq. }
  assert (Hsize : size ({[x]} ∪ {[y]} : gset string) = 2%nat).
  { rewrite size_union by (by apply disjoint_singleton_r, not_elem_of_singleton).
    by rewrite !size_singleton. }
  rewrite users_of_join, occupancy_of_join, join_room_out by lia.
  rewrite Husers, Hsize. split; [done|]. split; [done|].
  f_equal. unfold socket_to_emit, socket_join, sio_members, st1.
  cbn [sio_rooms]. rewrite lookup_insert_eq, lookup_singleton_eq.
  cbn [default]. unfold id.
  rewrite difference_union_distr_l_L, difference_diag_L, union_empty_r_L.
  rewrite difference_disjoint_L
    by (by apply disjoint_singleton_r, not_elem_of_singleton).
  by rewrite elements_singleton.
Qed.

(** X16: two clients that run [handleJoin] with the same valid PIN end up
    with engines holding the same key, the PBKDF2 derivation of that PIN,
    and send [join-room] for the same room; processed by the server from
    the empty registry for two different sockets, the first is told
    occupancy 1, the second occupancy 2, the first is told that the second
    joined, and the room then holds exactly the two. *)
Theorem X16_same_pin_same_room_same_key {crypto : SubtleCrypto}
    (a b : App crypto) (p x y : string) :
  valid_pin p = true →
  x ≠ y →
  let ja := handleJoin (setPin a p) true in
  let jb := handleJoin (setPin b p) true in
  let server :=
    run init (((λ m, (x, m)) <$> ja.2) ++ ((λ m, (y, m)) <$> jb.2)) in
  cryptoKey (cryptoRef ja.1)
    = Some (pbkdf2_deriveKey pbkdf2_params (encode p) 256)
  ∧ cryptoKey (cryptoRef jb.1) = cryptoKey (cryptoRef ja.1)
  ∧ users_of server.1 p = {[x; y]}
  ∧ occupancy_of server.1 p = 2%nat
  ∧ server.2 = [(x, roomJoined 1); (y, roomJoined 2); (x, userJoined y 2)].
Proof.
  intros Hvalid Hne ja jb server.
  assert (Hja : ja = ({| pin := p; status := connecting;
                         cryptoRef := (deriveKeyFromPIN (cryptoRef a) p).1;
                         currentRoomRef := Some p |},
                      [JoinRoom p])).
  { subst ja. unfold handleJoin. cbn [pin setPin]. by rewrite Hvalid. }
  assert (Hjb : jb = ({| pin := p; status := connecting;
                         cryptoRef := (deriveKeyFromPIN (cryptoRef b) p).1;
                         currentRoomRef := Some p |},
                      [JoinRoom p])).
  { subst jb. unfold handleJoin. cbn [pin setPin]. by rewrite Hvalid. }
  subst server. rewrite Hja, Hjb. cbn [fst snd fmap list_fmap app cryptoRef].
  split; [done|]. split; [done|].
  destruct (join_second x y p Hne) as (Husers & Hocc & Hout).
  cbn [run step]. rewrite join_empty_room in *. cbn [fst] in *.
  destruct (join_room _ y p) as [st2 out2]. cbn [fst snd] in *.
  by subst out2.
Qed.

(** An instance of X16: sockets X and Y, PIN 1111111111. *)
Lemma X16_witness :
  let a : App mask_crypto := initial_App in
  let b : App mask_crypto := (handleLeave (setPin initial_App "42")).1 in
  let ja := handleJoin (setPin a "1111111111") true in
  let jb := handleJoin (setPin b "1111111111") true in
  valid_pin "1111111111" = true
  ∧ "X" ≠ "Y"
  ∧ cryptoKey (cryptoRef jb.1) = cryptoKey (cryptoRef ja.1)
  ∧ occupancy_of
      (run init (((λ m, ("X", m)) <$> ja.2) ++ ((λ m, ("Y", m)) <$> jb.2))).1
      "1111111111" = 2%nat.
Proof.
  intros a b ja jb.
  assert (Hne : "X" ≠ "Y") by discriminate.
  destruct (X16_same_pin_same_room_same_key a b "1111111111" "X" "Y"
              eq_refl Hne) as (_ & Hkey & _ & Hocc & _).
  split; [reflexivity|]. split; [exact Hne|]. split; [exact Hkey|exact Hocc].
Defined.

End Rendezvous.
